(** * Arrangement check: a shallow embedding of [arrangement_check.py]

    The Python module validates and re-arranges a set of Maya scene
    objects (spheres and polyhedral solids) along a line through the
    origin.  This development embeds the class [MayaModelCheck] and the
    entry point [arrangement_check_and_fix] and proves the properties
    stated about them.

    Modelling conventions.
    - Coordinates are Python floats (IEEE 754 binary64) in the source.
      The class is embedded twice.  The main embedding computes with
      real numbers ([R]): [x ** 2] is [x ^ 2], [x ** 0.5] is [sqrt x]
      and nothing is rounded.  It carries the statements that do not
      depend on rounding (control flow, names, lists, face counts, the
      order of distances, zeros that stay zeros) and the statements
      restricted to coordinates on which binary64 computes exactly
      ([on_grid], [exact_spacing]).  Module [Binary64] embeds the
      arithmetic once more over binary64 numbers, with rounding,
      underflow and the [OverflowError] of [**]; it carries the runs in
      which rounding decides the outcome.
    - Object names are Python [str]; here [string], and the substring
      test [needle in hay] is [contains needle hay].
    - The Maya scene (the attributes read by [cmds.getAttr] and
      [cmds.polyEvaluate], written by [cmds.setAttr]) is a store [scene]
      passed explicitly.  Host queries are total.
    - Python exceptions are values of [exn]; a computation that may
      raise returns [res]. *)

From Stdlib Require Import Reals Lra Lia List String Ascii ZArith Bool.
From Stdlib Require Import Permutation Sorted Arith FunctionalExtensionality.
From Corelib Require PrimFloat.
Import ListNotations.

Set Implicit Arguments.

(** ** Python primitives *)

Module Py.

Inductive exn : Type := IndexError | ZeroDivisionError | OverflowError.

Inductive res (A : Type) : Type :=
| Ok (a : A)
| Raise (e : exn).
Arguments Ok {A} a.
Arguments Raise {A} e.

Definition bind {A B : Type} (m : res A) (k : A -> res B) : res B :=
  match m with
  | Ok a => k a
  | Raise e => Raise e
  end.

(** [needle in hay] on strings. *)
Fixpoint contains (needle hay : string) : bool :=
  if String.prefix needle hay then true
  else match hay with
       | EmptyString => false
       | String _ rest => contains needle rest
       end.

(** [s[-1]] on a string. *)
Fixpoint str_last (s : string) : res ascii :=
  match s with
  | EmptyString => Raise IndexError
  | String c EmptyString => Ok c
  | String _ rest => str_last rest
  end.

(** [l[-1]] on a list. *)
Fixpoint list_last {A : Type} (l : list A) : res A :=
  match l with
  | [] => Raise IndexError
  | [x] => Ok x
  | _ :: rest => list_last rest
  end.

(** [l[i]] for a non-negative index. *)
Definition list_get {A : Type} (l : list A) (i : nat) : res A :=
  match nth_error l i with
  | Some x => Ok x
  | None => Raise IndexError
  end.

(** [enumerate(l)]. *)
Definition enumerate {A : Type} (l : list A) : list (nat * A) :=
  combine (seq 0 (List.length l)) l.

(** [l.remove(x)] for an [x] known to occur: drops the first
    occurrence. *)
Fixpoint list_remove (x : string) (l : list string) : list string :=
  match l with
  | [] => []
  | y :: rest => if String.eqb x y then rest else y :: list_remove x rest
  end.

(** [l.sort(key=key)]: ascending and stable.  Python compares keys
    with [<] only; an element moves in front of another one only when
    its key is strictly smaller. *)
Section Sort.
Variables (A K : Type) (ltb : K -> K -> bool) (key : A -> K).

Fixpoint insert (x : A) (l : list A) : list A :=
  match l with
  | [] => [x]
  | y :: rest =>
      if ltb (key y) (key x) then y :: insert x rest else x :: y :: rest
  end.

Fixpoint sort_by (l : list A) : list A :=
  match l with
  | [] => []
  | x :: rest => insert x (sort_by rest)
  end.
End Sort.

End Py.
Import Py.

Declare Scope res_scope.
Delimit Scope res_scope with res.
Notation "x <- m ;; k" := (bind m (fun x => k))
  (at level 61, m at next level, right associativity) : res_scope.

(** Decidable comparisons on the reals, as booleans. *)
Definition Rltb (x y : R) : bool := if Rlt_dec x y then true else false.
Definition Reqb (x y : R) : bool := if Req_dec_T x y then true else false.

(** ** The scene host *)

Definition point : Type := (R * R * R)%type.

Record scene : Type := mkScene {
  translate : string -> point;     (* the [tx], [ty], [tz] attributes *)
  poly_faces : string -> Z         (* [polyEvaluate(face=True)] *)
}.

Definition upd {V : Type} (f : string -> V) (k : string) (v : V)
  : string -> V :=
  fun k' => if String.eqb k k' then v else f k'.

(** [cmds.setAttr(obj + ".translateX", v)] and its siblings. *)
Definition setAttr_translateX (sc : scene) (obj : string) (v : R) : scene :=
  let '(_, y, z) := translate sc obj in
  mkScene (upd (translate sc) obj (v, y, z)) (poly_faces sc).

Definition setAttr_translateY (sc : scene) (obj : string) (v : R) : scene :=
  let '(x, _, z) := translate sc obj in
  mkScene (upd (translate sc) obj (x, v, z)) (poly_faces sc).

Definition setAttr_translateZ (sc : scene) (obj : string) (v : R) : scene :=
  let '(x, y, _) := translate sc obj in
  mkScene (upd (translate sc) obj (x, y, v)) (poly_faces sc).

(** ** class MayaModelCheck *)

Local Open Scope R_scope.

Definition distance_bw_points (p_1 p_2 : point) : R :=
  let '(a0, a1, a2) := p_1 in
  let '(b0, b1, b2) := p_2 in
  let mag := (a0 - b0) ^ 2 + (a1 - b1) ^ 2 + (a2 - b2) ^ 2 in
  sqrt mag.

Definition magnitude (vec : point) : R :=
  let '(v0, v1, v2) := vec in
  let mag := v0 ^ 2 + v1 ^ 2 + v2 ^ 2 in
  sqrt mag.

Definition get_position (sc : scene) (obj : string) : point :=
  translate sc obj.

Definition vector_bw_obj (v_1 v_2 : point) : point :=
  let '(a0, a1, a2) := v_1 in
  let '(b0, b1, b2) := v_2 in
  (b0 - a0, b1 - a1, b2 - a2).

Definition distance_from_center (sc : scene) (obj : string) : R :=
  let position := get_position sc obj in
  distance_bw_points (0, 0, 0) position.

Definition cross_product (v_1 v_2 : point) : point :=
  let '(a0, a1, a2) := v_1 in
  let '(b0, b1, b2) := v_2 in
  (a1 * b2 - a2 * b1, a2 * b0 - a0 * b2, a0 * b1 - a1 * b0).

Definition get_faces (sc : scene) (obj : string) : Z :=
  poly_faces sc obj.

(** [for i in range(len(l) - 1): f(l[i], l[i + 1])], collected. *)
Fixpoint adjacent {A B : Type} (f : A -> A -> B) (l : list A) : list B :=
  match l with
  | x :: ((y :: _) as rest) => f x y :: adjacent f rest
  | _ => []
  end.

(** [False in check]. *)
Definition False_in (check : list bool) : bool := existsb negb check.

Definition check_if_in_line (sc : scene) (obj_list : list string) : bool :=
  let objs_position := map (get_position sc) obj_list in
  let vector_bw_objs := adjacent vector_bw_obj objs_position in
  let cross_products := adjacent cross_product vector_bw_objs in
  let cross_product_result :=
    map (fun product => if Reqb (magnitude product) 0 then true else false)
        cross_products in
  if False_in cross_product_result then false else true.

Definition if_equally_spaced (sc : scene) (obj_list : list string)
  : res bool :=
  let distance_from_origin :=
    sort_by Rltb (fun d => d)
            (map (fun obj => magnitude (get_position sc obj)) obj_list) in
  (d1 <- list_get distance_from_origin 1 ;;
   d0 <- list_get distance_from_origin 0 ;;
   let difference := d1 - d0 in
   let check :=
     adjacent (fun a b => if Reqb (b - a) difference then true else false)
              distance_from_origin in
   Ok (if False_in check then false else true))%res.

(** The inner loop of [if_right_order]; [false] is the early
    [return False]. *)
Fixpoint right_order_inner (sc : scene) (obj solid_name : string)
    (l : list string) : bool :=
  match l with
  | [] => true
  | obj2 :: rest =>
      if contains solid_name obj2 then
        if Rltb (distance_from_center sc obj2) (distance_from_center sc obj)
        then false
        else right_order_inner sc obj solid_name rest
      else right_order_inner sc obj solid_name rest
  end.

Fixpoint right_order_outer (sc : scene) (obj_list : list string)
    (l : list string) : res bool :=
  match l with
  | [] => Ok true
  | obj :: rest =>
      if contains "pSphere" obj then
        (index <- str_last obj ;;
         let solid_name := ("pSolid" ++ String index EmptyString)%string in
         if right_order_inner sc obj solid_name obj_list
         then right_order_outer sc obj_list rest
         else Ok false)%res
      else right_order_outer sc obj_list rest
  end.

Definition if_right_order (sc : scene) (obj_list : list string) : res bool :=
  right_order_outer sc obj_list obj_list.

(** The loop of [if_right_order_poly] over [polysolids[i]],
    [polysolids[i + 1]]; [false] is the early [return False]. *)
Fixpoint right_order_poly_loop (sc : scene) (polysolids : list string)
  : bool :=
  match polysolids with
  | a :: ((b :: _) as rest) =>
      if (get_faces sc a >? get_faces sc b)%Z then false
      else right_order_poly_loop sc rest
  | _ => true
  end.

Definition if_right_order_poly (sc : scene) (obj_list : list string) : bool :=
  let polysolids := filter (contains "pSolid") obj_list in
  right_order_poly_loop sc polysolids.

Definition distance_for_furthestsphere (sc : scene) (obj_list : list string)
  : res R :=
  let sphere := filter (contains "pSphere") obj_list in
  let sphere := sort_by Rltb (distance_from_center sc) sphere in
  (furthest <- list_last sphere ;;
   Ok (distance_from_center sc furthest))%res.

Definition no_of_spheres (obj_list : list string) : nat :=
  List.length (filter (contains "pSphere") obj_list).

Definition new_order_for_fixed_arrangement (sc : scene)
    (obj_list : list string) : list string :=
  let spheres := filter (contains "Sphere") obj_list in
  let solids := filter (fun obj => negb (contains "Sphere" obj)) obj_list in
  let spheres := sort_by Rltb (distance_from_center sc) spheres in
  let solids := sort_by Z.ltb (get_faces sc) solids in
  spheres ++ solids.

(** [distance / no_of_spheres]. *)
Definition py_div (a : R) (n : nat) : res R :=
  match n with
  | O => Raise ZeroDivisionError
  | S _ => Ok (a / INR n)
  end.

(** One iteration of the [enumerate] loop of [fix_arrangement]. *)
Definition place (new_spacing_bw_objs : R) (sc : scene) (entry : nat * string)
  : scene :=
  let '(i, i_1) := entry in
  let sc := setAttr_translateX sc i_1 (new_spacing_bw_objs * INR (i + 1)) in
  let sc := setAttr_translateY sc i_1 0 in
  setAttr_translateZ sc i_1 0.

Definition fix_arrangement (sc : scene) (obj_list : list string)
  : res scene :=
  (distance <- distance_for_furthestsphere sc obj_list ;;
   let no_of_spheres := no_of_spheres obj_list in
   new_spacing_bw_objs <- py_div distance no_of_spheres ;;
   let order := new_order_for_fixed_arrangement sc obj_list in
   Ok (fold_left (place new_spacing_bw_objs) (enumerate order) sc))%res.

(** ** The entry point [arrangement_check_and_fix] *)

(** [for descendents in obj_list: if "Shape" in descendents:
    obj_list.remove(descendents)].  The list is mutated while it is
    iterated: the iterator keeps an index [i] into the current list and
    stops when [i] reaches its length.  [fuel] bounds the number of
    iterations; the length of the initial list is enough (see
    [remove_shapes_loop_fuel]). *)
Fixpoint remove_shapes_loop (fuel i : nat) (obj_list : list string)
  : list string :=
  match fuel with
  | O => obj_list
  | S fuel' =>
      match nth_error obj_list i with
      | None => obj_list
      | Some descendents =>
          if contains "Shape" descendents
          then remove_shapes_loop fuel' (S i) (list_remove descendents obj_list)
          else remove_shapes_loop fuel' (S i) obj_list
      end
  end.

Definition remove_shapes (obj_list : list string) : list string :=
  remove_shapes_loop (List.length obj_list) 0 obj_list.

(** What a run does to the outside: calls of [fix_arrangement] (with
    their argument) and printed lines, in order. *)
Inductive event : Type :=
| Fix_called (obj_list : list string)
| Printed (line : string).

Record world : Type := mkWorld {
  w_scene : scene;
  w_log : list event
}.

Definition M (A : Type) : Type := world -> res A * world.

Definition mret {A : Type} (a : A) : M A := fun w => (Ok a, w).

Definition mbind {A B : Type} (m : M A) (k : A -> M B) : M B :=
  fun w =>
    match m w with
    | (Ok a, w') => k a w'
    | (Raise e, w') => (Raise e, w')
    end.

Definition lift {A : Type} (r : res A) : M A := fun w => (r, w).

Definition emit (e : event) : M unit :=
  fun w => (Ok tt, mkWorld (w_scene w) (w_log w ++ [e])).

Definition read_scene : M scene := fun w => (Ok (w_scene w), w).

Definition write_scene (sc : scene) : M unit :=
  fun w => (Ok tt, mkWorld sc (w_log w)).

Declare Scope world_scope.
Delimit Scope world_scope with world.
Notation "x <- m ;; k" := (mbind m (fun x => k))
  (at level 61, m at next level, right associativity) : world_scope.
Notation "m ;;; k" := (mbind m (fun _ => k))
  (at level 61, right associativity) : world_scope.

(** [astro_check.fix_arrangement(obj_list)] followed by [print(line)]. *)
Definition fix_and_print (obj_list : list string) (line : string) : M unit :=
  (emit (Fix_called obj_list) ;;;
   sc <- read_scene ;;
   sc' <- lift (fix_arrangement sc obj_list) ;;
   write_scene sc' ;;;
   emit (Printed line))%world.

Definition when (b : bool) (m : M unit) : M unit :=
  if b then m else mret tt.

Definition arrangement_check_and_fix (listRelatives : list string) : M unit :=
  (let obj_list := remove_shapes listRelatives in
   sc <- read_scene ;;
   let obj_list := sort_by Rltb (distance_from_center sc) obj_list in
   are_object_equally_spaced <- lift (if_equally_spaced sc obj_list) ;;
   let are_object_in_line := check_if_in_line sc obj_list in
   let are_in_right_order2 := if_right_order_poly sc obj_list in
   are_in_right_order <- lift (if_right_order sc obj_list) ;;
   when (negb are_object_equally_spaced)
        (fix_and_print obj_list
           "Objects were not equally spaced and are fixed") ;;;
   when (negb are_object_in_line)
        (fix_and_print obj_list
           "Objects were not in one line and are fixed") ;;;
   when (negb (are_in_right_order || are_in_right_order2))
        (fix_and_print obj_list
           "Objects were not in right order and are fixed"))%world.

(** The list the entry point works on, and the number of correction
    calls in a log. *)
Definition checked_list (sc : scene) (listRelatives : list string)
  : list string :=
  sort_by Rltb (distance_from_center sc) (remove_shapes listRelatives).

Definition is_fix_call (e : event) : bool :=
  match e with
  | Fix_called _ => true
  | Printed _ => false
  end.

Definition fix_calls (log : list event) : list event :=
  filter is_fix_call log.

(** ** Scenes given by tables, for concrete runs *)

Fixpoint lookup {V : Type} (default : V) (table : list (string * V))
    (k : string) : V :=
  match table with
  | [] => default
  | (k', v) :: rest => if String.eqb k' k then v else lookup default rest k
  end.

Definition scene_of (positions : list (string * point))
    (faces : list (string * Z)) : scene :=
  mkScene (lookup (0, 0, 0) positions) (lookup 0%Z faces).

(** ** Notions used in the statements *)

Definition le_distance (sc : scene) (a b : string) : Prop :=
  distance_from_center sc a <= distance_from_center sc b.

Definition le_faces (sc : scene) (a b : string) : Prop :=
  (get_faces sc a <= get_faces sc b)%Z.

(** [sphere[-1]] in [distance_for_furthestsphere]: the sphere whose
    distance is returned. *)
Definition furthest_sphere (sc : scene) (obj_list : list string)
  : res string :=
  list_last (sort_by Rltb (distance_from_center sc)
                     (filter (contains "pSphere") obj_list)).

(** The program recognises spheres by two different markers: ["pSphere"]
    when it counts them and looks for the furthest one, ["Sphere"] when
    it builds the new order.  On the names below the two agree. *)
Definition markers_agree (obj_list : list string) : Prop :=
  forall obj, In obj obj_list ->
              contains "Sphere" obj = contains "pSphere" obj.

(** The canonical arrangement, for a given reading [is_sphere] of
    "sphere": [sc'] places the spheres of [obj_list], in ascending
    distance (measured in [sc]), and then the other objects, in
    ascending face count, at [(s * i, 0, 0)] for [i = 1, 2, ...] with
    [s = D / n], [D] the largest distance of a sphere and [n] the number
    of spheres. *)
Definition placed_canonically (is_sphere : string -> bool) (sc : scene)
    (obj_list : list string) (sc' : scene) : Prop :=
  exists (spheres solids : list string) (D : R),
    Permutation spheres (filter is_sphere obj_list)
    /\ StronglySorted (le_distance sc) spheres
    /\ Permutation solids (filter (fun o => negb (is_sphere o)) obj_list)
    /\ StronglySorted (le_faces sc) solids
    /\ (exists m, In m spheres /\ D = distance_from_center sc m)
    /\ (forall a, In a spheres -> distance_from_center sc a <= D)
    /\ (forall i obj,
          nth_error (spheres ++ solids) i = Some obj ->
          translate sc' obj
          = (D / INR (List.length spheres) * INR (i + 1), 0, 0)).

(** A polygon sphere and a NURBS sphere (Maya's default names). *)
Definition mixed_objects : list string := ["pSphere1"; "nurbsSphere1"]%string.

Definition mixed_scene : scene :=
  scene_of [("pSphere1", (2, 0, 0)); ("nurbsSphere1", (1, 0, 0))]%string [].

(** Pairing by index, as the docstring of [if_right_order] has it
    ("sphere and poly with same index"): a solid and a sphere belong
    together when their names end in the same number.  [numeric_suffix]
    is the longest run of digits at the end of a name. *)
Definition is_digit (c : ascii) : bool :=
  let n := nat_of_ascii c in (48 <=? n)%nat && (n <=? 57)%nat.

Fixpoint numeric_suffix (s : string) : string :=
  match s with
  | EmptyString => EmptyString
  | String c rest =>
      let r := numeric_suffix rest in
      if (String.length r =? String.length rest)%nat && is_digit c
      then String c r else r
  end.

Definition same_index_solid (sphere obj2 : string) : bool :=
  contains "pSolid" obj2
  && String.eqb (numeric_suffix sphere) (numeric_suffix obj2).

(** The pairing [if_right_order] computes: [obj2] contains ["pSolid"]
    followed by the last character of the sphere's name. *)
Definition last_char_solid (sphere obj2 : string) : Prop :=
  exists index,
    str_last sphere = Ok index
    /\ contains ("pSolid" ++ String index EmptyString) obj2 = true.

(** The twelfth sphere and its solid, the solid nearer to the origin. *)
Definition twelfth_objects : list string := ["pSphere12"; "pSolid12"]%string.

Definition twelfth_scene : scene :=
  scene_of [("pSphere12", (5, 0, 0)); ("pSolid12", (1, 0, 0))]%string [].

(** The first sphere and the twelfth solid, the solid nearer to the
    origin. *)
Definition first_twelfth_objects : list string :=
  ["pSphere1"; "pSolid12"]%string.

Definition first_twelfth_scene : scene :=
  scene_of [("pSphere1", (5, 0, 0)); ("pSolid12", (1, 0, 0))]%string [].

(** Lines in space: the point [p + t * d], and moving one object of a
    scene to a new position. *)
Definition line_point (p d : point) (t : R) : point :=
  let '(p0, p1, p2) := p in
  let '(d0, d1, d2) := d in
  (p0 + t * d0, p1 + t * d1, p2 + t * d2).

Definition on_line (p d q : point) : Prop := exists t, q = line_point p d t.

Definition move (sc : scene) (obj : string) (q : point) : scene :=
  mkScene (upd (translate sc) obj q) (poly_faces sc).

(** The displacement vectors and cross products [check_if_in_line]
    computes. *)
Definition displacements (sc : scene) (obj_list : list string) : list point :=
  adjacent vector_bw_obj (map (get_position sc) obj_list).

Definition cross_products_of (sc : scene) (obj_list : list string)
  : list point :=
  adjacent cross_product (displacements sc obj_list).

(** A sphere and two solids ... *)
Definition three_objects : list string :=
  ["pSphere1"; "pSolid1"; "pSolid2"]%string.

(** ... on the x-axis, the two solids at the same place; *)
Definition coincident_scene : scene :=
  scene_of [("pSphere1", (0, 0, 0)); ("pSolid1", (1, 0, 0));
            ("pSolid2", (1, 0, 0))]%string [].

(** ... in a row on the x-axis, at 1, 2 and 3; *)
Definition row_scene : scene :=
  scene_of [("pSphere1", (1, 0, 0)); ("pSolid1", (2, 0, 0));
            ("pSolid2", (3, 0, 0))]%string [].

(** ... and in disorder: unevenly spaced, not on a line, the sphere
    beyond its solid, and the solid with more faces nearer. *)
Definition disorder_scene : scene :=
  scene_of [("pSphere1", (4, 0, 0)); ("pSolid1", (1, 0, 0));
            ("pSolid2", (0, 2, 0))]%string
           [("pSolid1", 6%Z); ("pSolid2", 4%Z)]%string.


(** The list on which the predicates are evaluated again after a
    correction: the objects in ascending distance. *)
Definition rechecked_list (sc : scene) (obj_list : list string)
  : list string :=
  sort_by Rltb (distance_from_center sc) obj_list.





(** Keys that grow with the index: [key (l[i]) = s * (k + i + 1)]. *)
Definition keyed_by_index {A : Type} (key : A -> R) (s : R) (k : nat)
    (l : list A) : Prop :=
  forall i a, nth_error l i = Some a -> key a = s * INR (k + i + 1).

(** Vectors: the sum and a multiple of triples, used to state properties
    of the vector functions. *)
Definition vec_add (u v : point) : point :=
  let '(u0, u1, u2) := u in
  let '(v0, v1, v2) := v in
  (u0 + v0, u1 + v1, u2 + v2).

Definition vec_scale (k : R) (v : point) : point :=
  let '(v0, v1, v2) := v in (k * v0, k * v1, k * v2).

(** The row of [row_scene], raised by one unit. *)
Definition raised_row_scene : scene :=
  scene_of [("pSphere1", (1, 1, 0)); ("pSolid1", (2, 1, 0));
            ("pSolid2", (3, 1, 0))]%string [].

(** [distance_from_origin] in [if_equally_spaced], after its [sort()]. *)
Definition sorted_distances (sc : scene) (obj_list : list string) : list R :=
  sort_by Rltb (fun d => d)
          (map (fun obj => magnitude (get_position sc obj)) obj_list).


(** The filter loop of the entry point, read as a recursion over the
    list: a name containing ["Shape"] is dropped, and the name that
    follows it slides under the iterator and is kept without being
    looked at. *)
Fixpoint drop_shapes_skipping (obj_list : list string) : list string :=
  match obj_list with
  | [] => []
  | x :: rest =>
      if contains "Shape" x then
        match rest with
        | [] => []
        | y :: rest' => y :: drop_shapes_skipping rest'
        end
      else x :: drop_shapes_skipping rest
  end.

(** No two neighbours of the list both contain ["Shape"]. *)
Fixpoint no_adjacent_shapes (obj_list : list string) : bool :=
  match obj_list with
  | x :: ((y :: _) as rest) =>
      negb (contains "Shape" x && contains "Shape" y)
      && no_adjacent_shapes rest
  | _ => true
  end.

(** A listing of transforms, each followed by its shape node. *)
Definition listed_with_shapes : list string :=
  ["pSphere1"; "pSphereShape1"; "pSolid1"; "pSolidShape1"]%string.

(** Three solids on the x-axis, unevenly spaced, and no sphere. *)
Definition solids_only : list string :=
  ["pSolid1"; "pSolid2"; "pSolid3"]%string.

Definition solids_scene : scene :=
  scene_of [("pSolid1", (1, 0, 0)); ("pSolid2", (2, 0, 0));
            ("pSolid3", (4, 0, 0))]%string [].

(** Three polygon spheres. *)
Definition three_spheres : list string :=
  ["pSphere1"; "pSphere2"; "pSphere3"]%string.

(** The canonical order, with the polygon spheres as spheres: the
    spheres in ascending distance, then the other objects in ascending
    face count. *)
Definition canonical_order (sc : scene) (obj_list : list string)
  : list string :=
  sort_by Rltb (distance_from_center sc)
          (filter (contains "pSphere") obj_list)
  ++ sort_by Z.ltb (get_faces sc)
             (filter (fun obj => negb (contains "pSphere" obj)) obj_list).

(** Coordinates on which the binary64 arithmetic of the checks is
    exact: multiples of [2 ^ - e], at most [2 ^ 25] of them.
    Differences stay below [2 ^ 26] units, products of two differences
    and their differences below [2 ^ 53] units, and no square
    underflows. *)
Definition on_grid (e : nat) (q : point) : Prop :=
  (e <= 64)%nat
  /\ exists a b c : Z,
      q = (IZR a / 2 ^ e, IZR b / 2 ^ e, IZR c / 2 ^ e)
      /\ (Z.abs a <= 2 ^ 25)%Z /\ (Z.abs b <= 2 ^ 25)%Z
      /\ (Z.abs c <= 2 ^ 25)%Z.


(** The pairs of indices that share three consecutive places of a list
    with the index [k]. *)
Definition companions (k : nat) : list (nat * nat) :=
  (if (2 <=? k)%nat then [((k - 2)%nat, (k - 1)%nat)] else [])
  ++ (if (1 <=? k)%nat then [((k - 1)%nat, (k + 1)%nat)] else [])
  ++ [((k + 1)%nat, (k + 2)%nat)].

(** Among some three consecutive objects of the list that include the
    one at index [k], the other two are at different places. *)
Definition bend_visible (sc : scene) (obj_list : list string) (k : nat)
  : Prop :=
  exists i j oi oj,
    In (i, j) (companions k)
    /\ nth_error obj_list i = Some oi /\ nth_error obj_list j = Some oj
    /\ get_position sc oi <> get_position sc oj.

(** Three objects on the line through the origin with direction
    [(1, 3, 0)], at the parameters [-1], [2 ^ 53] and [2 ^ 54]. *)
Definition far_scene : scene :=
  scene_of [("pSphere1", (-1, -3, 0));
            ("pSolid1", (9007199254740992, 27021597764222976, 0));
            ("pSolid2", (18014398509481984, 54043195528445952, 0))]%string
           [].

(** Three objects, the third off the x-axis by [2 ^ - 600]. *)
Definition bent_scene : scene :=
  scene_of [("pSphere1", (0, 0, 0)); ("pSolid1", (1, 0, 0));
            ("pSolid2", (2, / 2 ^ 600, 0))]%string [].

(** ** The arithmetic in binary64 *)

(** The functions of [MayaModelCheck] that compute with coordinates,
    over binary64 numbers.  The operators [-], [+], [*], [/], [<] and
    [==] of Python floats are those of IEEE 754.  [x ** 2] and
    [x ** 0.5] call C's [pow], taken here to round correctly, so that
    they are the rounded square and the rounded square root.  An [int]
    that meets a float ([0], [i + 1], the number of spheres) is
    converted first. *)
Module Binary64.
Import PrimFloat.

Definition point : Type := (float * float * float)%type.

Record scene : Type := mkScene {
  translate : string -> point;     (* the [tx], [ty], [tz] attributes *)
  poly_faces : string -> Z         (* [polyEvaluate(face=True)] *)
}.

Definition setAttr_translateX (sc : scene) (obj : string) (v : float)
  : scene :=
  let '(_, y, z) := translate sc obj in
  mkScene (upd (translate sc) obj (v, y, z)) (poly_faces sc).

Definition setAttr_translateY (sc : scene) (obj : string) (v : float)
  : scene :=
  let '(x, _, z) := translate sc obj in
  mkScene (upd (translate sc) obj (x, v, z)) (poly_faces sc).

Definition setAttr_translateZ (sc : scene) (obj : string) (v : float)
  : scene :=
  let '(x, y, _) := translate sc obj in
  mkScene (upd (translate sc) obj (x, y, v)) (poly_faces sc).

(** [float(n)] for a Python [int] [n]; exact below [2 ^ 53]. *)
Fixpoint of_int (n : nat) : float :=
  match n with
  | O => 0%float
  | S k => (of_int k + 1)%float
  end.

(** [x ** 2].  CPython raises [OverflowError] when the result of a
    finite argument is infinite; an underflow passes as zero. *)
Definition square (x : float) : res float :=
  let y := (x * x)%float in
  if is_infinity y && negb (is_infinity x) then Raise OverflowError
  else Ok y.

(** [x ** 0.5], on the sums of squares it is applied to. *)
Definition root (x : float) : float := sqrt x.

(** [for a in l: f(a)], the results collected; the first exception ends
    the loop. *)
Fixpoint for_each {A B : Type} (f : A -> res B) (l : list A)
  : res (list B) :=
  match l with
  | [] => Ok []
  | a :: rest =>
      (b <- f a ;;
       bs <- for_each f rest ;;
       Ok (b :: bs))%res
  end.

(** [l.sort(key=key)]: Python calls [key] once on every element, in
    list order, and then sorts by the values it got. *)
Definition sort_by_key {A : Type} (key : A -> res float) (l : list A)
  : res (list A) :=
  (keyed <- for_each (fun a => k <- key a ;; Ok (k, a)) l ;;
   Ok (map snd (sort_by PrimFloat.ltb fst keyed)))%res.

Definition distance_bw_points (p_1 p_2 : point) : res float :=
  let '(a0, a1, a2) := p_1 in
  let '(b0, b1, b2) := p_2 in
  (s0 <- square (a0 - b0)%float ;;
   s1 <- square (a1 - b1)%float ;;
   s2 <- square (a2 - b2)%float ;;
   let mag := (s0 + s1 + s2)%float in
   Ok (root mag))%res.

Definition magnitude (vec : point) : res float :=
  let '(v0, v1, v2) := vec in
  (s0 <- square v0 ;;
   s1 <- square v1 ;;
   s2 <- square v2 ;;
   let mag := (s0 + s1 + s2)%float in
   Ok (root mag))%res.

Definition get_position (sc : scene) (obj : string) : point :=
  translate sc obj.

Definition vector_bw_obj (v_1 v_2 : point) : point :=
  let '(a0, a1, a2) := v_1 in
  let '(b0, b1, b2) := v_2 in
  (b0 - a0, b1 - a1, b2 - a2)%float.

Definition distance_from_center (sc : scene) (obj : string) : res float :=
  let position := get_position sc obj in
  distance_bw_points (0, 0, 0)%float position.

Definition cross_product (v_1 v_2 : point) : point :=
  let '(a0, a1, a2) := v_1 in
  let '(b0, b1, b2) := v_2 in
  (a1 * b2 - a2 * b1, a2 * b0 - a0 * b2, a0 * b1 - a1 * b0)%float.

Definition get_faces (sc : scene) (obj : string) : Z :=
  poly_faces sc obj.

Definition check_if_in_line (sc : scene) (obj_list : list string)
  : res bool :=
  let objs_position := map (get_position sc) obj_list in
  let vector_bw_objs := adjacent vector_bw_obj objs_position in
  let cross_products := adjacent cross_product vector_bw_objs in
  (cross_product_result <-
     for_each (fun product =>
                 magnitude <- magnitude product ;;
                 Ok (if (magnitude =? 0)%float then true else false))
              cross_products ;;
   Ok (if False_in cross_product_result then false else true))%res.

Definition if_equally_spaced (sc : scene) (obj_list : list string)
  : res bool :=
  (distance_from_origin <-
     for_each (fun obj => magnitude (get_position sc obj)) obj_list ;;
   let distance_from_origin :=
     sort_by PrimFloat.ltb (fun d => d) distance_from_origin in
   d1 <- list_get distance_from_origin 1 ;;
   d0 <- list_get distance_from_origin 0 ;;
   let difference := (d1 - d0)%float in
   let check :=
     adjacent (fun a b => if (b - a =? difference)%float then true
                          else false)
              distance_from_origin in
   Ok (if False_in check then false else true))%res.

(** [sphere[-1]] in [distance_for_furthestsphere]. *)
Definition furthest_sphere (sc : scene) (obj_list : list string)
  : res string :=
  (sphere <- sort_by_key (distance_from_center sc)
                         (filter (contains "pSphere") obj_list) ;;
   list_last sphere)%res.

Definition distance_for_furthestsphere (sc : scene) (obj_list : list string)
  : res float :=
  let sphere := filter (contains "pSphere") obj_list in
  (sphere <- sort_by_key (distance_from_center sc) sphere ;;
   furthest <- list_last sphere ;;
   distance_from_center sc furthest)%res.

Definition new_order_for_fixed_arrangement (sc : scene)
    (obj_list : list string) : res (list string) :=
  let spheres := filter (contains "Sphere") obj_list in
  let solids := filter (fun obj => negb (contains "Sphere" obj)) obj_list in
  (spheres <- sort_by_key (distance_from_center sc) spheres ;;
   let solids := sort_by Z.ltb (get_faces sc) solids in
   Ok (spheres ++ solids))%res.

(** [distance / no_of_spheres]. *)
Definition py_div (a : float) (n : nat) : res float :=
  match n with
  | O => Raise ZeroDivisionError
  | S _ => Ok (a / of_int n)%float
  end.

(** One iteration of the [enumerate] loop of [fix_arrangement]. *)
Definition place (new_spacing_bw_objs : float) (sc : scene)
    (entry : nat * string) : scene :=
  let '(i, i_1) := entry in
  let sc :=
    setAttr_translateX sc i_1 (new_spacing_bw_objs * of_int (i + 1))%float in
  let sc := setAttr_translateY sc i_1 0%float in
  setAttr_translateZ sc i_1 0%float.

Definition fix_arrangement (sc : scene) (obj_list : list string)
  : res scene :=
  (distance <- distance_for_furthestsphere sc obj_list ;;
   let no_of_spheres := no_of_spheres obj_list in
   new_spacing_bw_objs <- py_div distance no_of_spheres ;;
   order <- new_order_for_fixed_arrangement sc obj_list ;;
   Ok (fold_left (place new_spacing_bw_objs) (enumerate order) sc))%res.

(** The list on which the predicates are evaluated again after a
    correction: the objects in ascending distance. *)
Definition rechecked_list (sc : scene) (obj_list : list string)
  : res (list string) :=
  sort_by_key (distance_from_center sc) obj_list.

Definition scene_of (positions : list (string * point))
    (faces : list (string * Z)) : scene :=
  mkScene (lookup (0, 0, 0)%float positions) (lookup 0%Z faces).


(** ... and at distance 0.9, the binary64 number nearest to 9 / 10. *)
Definition nine_tenths : float := (9 / 10)%float.

Definition nine_tenths_scene : scene :=
  scene_of [("pSphere1", (0, 0, 0)); ("pSphere2", (0, 0, 0));
            ("pSphere3", (nine_tenths, 0, 0))]%float%string [].

(** The objects of [far_scene] and of [bent_scene] above; their
    coordinates are binary64 numbers. *)
Definition far_scene : scene :=
  scene_of [("pSphere1", (-1, -3, 0));
            ("pSolid1", (9007199254740992, 27021597764222976, 0));
            ("pSolid2", (18014398509481984, 54043195528445952, 0))]%float%string
           [].

Definition bent_scene : scene :=
  scene_of [("pSphere1", (0, 0, 0)); ("pSolid1", (1, 0, 0));
            ("pSolid2", (2, 0x1p-600, 0))]%float%string [].

(** Vectors along the x-axis and along the diagonal of the xy-plane,
    and two numbers whose squares leave the range of binary64. *)
Definition along_x (x : float) : point := (x, 0, 0)%float.

Definition diagonal (x : float) : point := (x, x, 0)%float.

Definition two_to_600 : float := 0x1p600%float.

Definition two_to_minus_600 : float := 0x1p-600%float.

(** A sphere and two solids in disorder, as [disorder_scene] above. *)
Definition disorder_scene : scene :=
  scene_of [("pSphere1", (4, 0, 0)); ("pSolid1", (1, 0, 0));
            ("pSolid2", (0, 2, 0))]%float%string
           [("pSolid1", 6%Z); ("pSolid2", 4%Z)]%string.

End Binary64.

(** * Properties *)

(** ** Comparisons and square roots *)

Lemma Rltb_true (x y : R) : Rltb x y = true <-> x < y.
Proof. unfold Rltb. destruct (Rlt_dec x y); split; intros; easy. Qed.

Lemma Rltb_false (x y : R) : Rltb x y = false <-> y <= x.
Proof.
  unfold Rltb. destruct (Rlt_dec x y); split; intros; try easy; lra.
Qed.

Lemma Rltb_irrefl (x : R) : Rltb x x = false.
Proof. apply Rltb_false. lra. Qed.

Lemma Reqb_true (x y : R) : Reqb x y = true <-> x = y.
Proof. unfold Reqb. destruct (Req_dec_T x y); split; intros; easy. Qed.

Lemma Reqb_false (x y : R) : Reqb x y = false <-> x <> y.
Proof. unfold Reqb. destruct (Req_dec_T x y); split; intros; easy. Qed.

Lemma Reqb_refl (x : R) : Reqb x x = true.
Proof. now apply Reqb_true. Qed.

Lemma magnitude_nonneg (v : point) : 0 <= magnitude v.
Proof. destruct v as [[x y] z]. apply sqrt_pos. Qed.

Lemma magnitude_zero_iff (v : point) : magnitude v = 0 <-> v = (0, 0, 0).
Proof.
  destruct v as [[x y] z]. unfold magnitude. split.
  - intros H. apply sqrt_eq_0 in H; [| nra].
    assert (x = 0) by nra. assert (y = 0) by nra. assert (z = 0) by nra.
    subst. reflexivity.
  - intros H. inversion H. subst.
    replace (0 ^ 2 + 0 ^ 2 + 0 ^ 2) with 0 by ring. apply sqrt_0.
Qed.

Lemma magnitude_x_axis (x : R) : 0 <= x -> magnitude (x, 0, 0) = x.
Proof.
  intros Hx. unfold magnitude.
  replace (x ^ 2 + 0 ^ 2 + 0 ^ 2) with (Rsqr x) by (unfold Rsqr; ring).
  now apply sqrt_Rsqr.
Qed.

Lemma distance_from_origin_magnitude (p : point) :
  distance_bw_points (0, 0, 0) p = magnitude p.
Proof.
  destruct p as [[x y] z]. unfold distance_bw_points, magnitude.
  f_equal. ring.
Qed.

Lemma distance_from_center_magnitude (sc : scene) (obj : string) :
  distance_from_center sc obj = magnitude (get_position sc obj).
Proof. apply distance_from_origin_magnitude. Qed.

Lemma distance_from_center_x_axis (sc : scene) (obj : string) (x : R) :
  translate sc obj = (x, 0, 0) -> 0 <= x -> distance_from_center sc obj = x.
Proof.
  intros H Hx. rewrite distance_from_center_magnitude.
  unfold get_position. rewrite H. now apply magnitude_x_axis.
Qed.

(** ** Strings *)

Lemma str_last_nonempty (c : ascii) (s : string) :
  exists d, str_last (String c s) = Ok d.
Proof.
  revert c. induction s as [| c' s IH]; intros c.
  - now exists c.
  - destruct (IH c') as [d Hd]. exists d. exact Hd.
Qed.

Lemma contains_pSphere_last (s : string) :
  contains "pSphere" s = true -> exists d, str_last s = Ok d.
Proof.
  destruct s as [| c s]; [discriminate |]. intros _. apply str_last_nonempty.
Qed.

(** ** Adjacent pairs *)

Lemma adjacent_short {A B : Type} (f : A -> A -> B) (l : list A) :
  (List.length l < 2)%nat -> adjacent f l = [].
Proof.
  destruct l as [| x [| y l]]; simpl; intros; try reflexivity; lia.
Qed.

Lemma adjacent_length {A B : Type} (f : A -> A -> B) (l : list A) :
  List.length (adjacent f l) = (List.length l - 1)%nat.
Proof.
  induction l as [| x [| y l] IH]; try reflexivity.
  change (adjacent f (x :: y :: l)) with (f x y :: adjacent f (y :: l)).
  simpl List.length in *. rewrite IH. lia.
Qed.

Lemma adjacent_nth {A B : Type} (f : A -> A -> B) (l : list A) (i : nat)
    (a b : A) :
  nth_error l i = Some a -> nth_error l (S i) = Some b ->
  nth_error (adjacent f l) i = Some (f a b).
Proof.
  revert i. induction l as [| x [| y l] IH]; intros i Ha Hb.
  - destruct i; discriminate.
  - destruct i as [| [| i]]; discriminate.
  - change (adjacent f (x :: y :: l)) with (f x y :: adjacent f (y :: l)).
    destruct i as [| i].
    + simpl in *. congruence.
    + simpl. apply IH; assumption.
Qed.

Lemma adjacent_nth_inv {A B : Type} (f : A -> A -> B) (l : list A) (i : nat)
    (v : B) :
  nth_error (adjacent f l) i = Some v ->
  exists a b, nth_error l i = Some a /\ nth_error l (S i) = Some b
              /\ v = f a b.
Proof.
  revert i. induction l as [| x [| y l] IH]; intros i H.
  - destruct i; discriminate.
  - destruct i; discriminate.
  - change (adjacent f (x :: y :: l)) with (f x y :: adjacent f (y :: l)) in H.
    destruct i as [| i].
    + simpl in H. inversion H. now exists x, y.
    + simpl in H. destruct (IH i H) as (a & b & Ha & Hb & Hv).
      exists a, b. auto.
Qed.

Lemma False_in_false (check : list bool) :
  False_in check = false <-> forall b, In b check -> b = true.
Proof.
  unfold False_in. induction check as [| c check IH]; simpl.
  - split; [intros _ b [] | reflexivity].
  - rewrite orb_false_iff, IH. split.
    + intros [Hc H] b [<- | Hb]; [now destruct c | auto].
    + intros H. split; [rewrite (H c); auto | intros b Hb; auto].
Qed.

Lemma False_in_true (check : list bool) :
  False_in check = true <-> In false check.
Proof.
  unfold False_in. rewrite existsb_exists. split.
  - intros [b [Hb Hn]]. now destruct b.
  - intros H. now exists false.
Qed.

(** ** The stable sort *)

Section SortFacts.
Variables (A K : Type) (ltb : K -> K -> bool) (key : A -> K).
Variable leK : K -> K -> Prop.
Hypothesis ltb_false_le : forall a b, ltb a b = false -> leK b a.
Hypothesis ltb_true_le : forall a b, ltb a b = true -> leK a b.
Hypothesis le_ltb_false : forall a b, leK a b -> ltb b a = false.
Hypothesis leK_refl : forall a, leK a a.
Hypothesis leK_trans : forall a b c, leK a b -> leK b c -> leK a c.

Let le_key (a b : A) : Prop := leK (key a) (key b).
Let lt_key (a b : A) : Prop := ltb (key a) (key b) = true.

Lemma insert_perm (x : A) (l : list A) :
  Permutation (insert ltb key x l) (x :: l).
Proof.
  induction l as [| y l IH]; simpl; [reflexivity |].
  destruct (ltb (key y) (key x)); [| reflexivity].
  rewrite IH. apply perm_swap.
Qed.

Lemma sort_by_perm (l : list A) : Permutation (sort_by ltb key l) l.
Proof.
  induction l as [| x l IH]; simpl; [constructor |].
  rewrite insert_perm. now constructor.
Qed.

Lemma sort_by_In (l : list A) (a : A) : In a (sort_by ltb key l) <-> In a l.
Proof.
  split; apply Permutation_in;
    [apply sort_by_perm | symmetry; apply sort_by_perm].
Qed.

Lemma sort_by_length (l : list A) :
  List.length (sort_by ltb key l) = List.length l.
Proof. apply Permutation_length, sort_by_perm. Qed.

Lemma sort_by_NoDup (l : list A) : NoDup l -> NoDup (sort_by ltb key l).
Proof.
  intros H. eapply Permutation_NoDup; [| exact H].
  symmetry. apply sort_by_perm.
Qed.

Lemma insert_sorted (x : A) (l : list A) :
  StronglySorted le_key l -> StronglySorted le_key (insert ltb key x l).
Proof.
  induction l as [| y l IH]; intros Hs; simpl.
  - constructor; constructor.
  - apply StronglySorted_inv in Hs. destruct Hs as [Hs Hy].
    destruct (ltb (key y) (key x)) eqn:E.
    + constructor; [now apply IH |].
      rewrite Forall_forall. intros z Hz.
      apply (Permutation_in _ (insert_perm x l)) in Hz.
      destruct Hz as [<- | Hz].
      * now apply ltb_true_le.
      * rewrite Forall_forall in Hy. now apply Hy.
    + assert (Hxy : le_key x y) by now apply ltb_false_le.
      constructor; [now constructor |].
      constructor; [exact Hxy |].
      rewrite Forall_forall in *. intros z Hz.
      eapply leK_trans; [exact Hxy | now apply Hy].
Qed.

Lemma sort_by_sorted (l : list A) : StronglySorted le_key (sort_by ltb key l).
Proof.
  induction l as [| x l IH]; simpl; [constructor | now apply insert_sorted].
Qed.

(** A list already in ascending key order is left as it is. *)
Lemma sort_by_sorted_id (l : list A) :
  StronglySorted le_key l -> sort_by ltb key l = l.
Proof.
  induction l as [| x l IH]; intros Hs; [reflexivity |].
  apply StronglySorted_inv in Hs. destruct Hs as [Hs Hx].
  simpl. rewrite (IH Hs). destruct l as [| y l]; [reflexivity |].
  simpl. inversion Hx as [| ? ? Hxy _]; subst.
  now rewrite (le_ltb_false Hxy).
Qed.

(** Two arrangements of the same elements, one ascending and one
    strictly ascending, coincide. *)
Lemma sorted_unique (l1 l2 : list A) :
  StronglySorted le_key l1 -> StronglySorted lt_key l2 ->
  Permutation l1 l2 -> l1 = l2.
Proof.
  revert l1. induction l2 as [| h2 t2 IH]; intros l1 H1 H2 HP.
  - symmetry in HP. now apply Permutation_nil in HP.
  - destruct l1 as [| h1 t1].
    + now apply Permutation_nil in HP.
    + apply StronglySorted_inv in H1. destruct H1 as [H1 Hh1].
      apply StronglySorted_inv in H2. destruct H2 as [H2 Hh2].
      rewrite Forall_forall in Hh1, Hh2.
      assert (Heq : h1 = h2).
      { assert (I1 : In h1 (h2 :: t2))
          by (eapply Permutation_in; [exact HP | now left]).
        assert (I2 : In h2 (h1 :: t1))
          by (eapply Permutation_in; [symmetry; exact HP | now left]).
        destruct I1 as [E | I1]; [now symmetry |].
        destruct I2 as [E | I2]; [exact E |].
        specialize (Hh2 _ I1). specialize (Hh1 _ I2).
        unfold lt_key in Hh2. unfold le_key in Hh1.
        apply le_ltb_false in Hh1. congruence. }
      subst h2. f_equal. apply IH; try assumption.
      eapply Permutation_cons_inv; exact HP.
Qed.

Lemma sort_by_unique (l c : list A) :
  StronglySorted lt_key c -> Permutation l c -> sort_by ltb key l = c.
Proof.
  intros Hc HP. apply sorted_unique; [apply sort_by_sorted | exact Hc |].
  rewrite sort_by_perm. exact HP.
Qed.

(** The last element of an ascending list has the largest key. *)
Lemma sorted_last_max (l : list A) (m : A) :
  StronglySorted le_key l -> list_last l = Ok m ->
  In m l /\ forall a, In a l -> le_key a m.
Proof.
  induction l as [| x l IH]; intros Hs Hl; [discriminate |].
  apply StronglySorted_inv in Hs. destruct Hs as [Hs Hx].
  destruct l as [| y l].
  - inversion Hl; subst. split; [now left |].
    intros a [<- | []]. apply leK_refl.
  - change (list_last (x :: y :: l)) with (list_last (y :: l)) in Hl.
    destruct (IH Hs Hl) as [Hm Hmax]. split; [now right |].
    intros a [<- | Ha]; [| now apply Hmax].
    rewrite Forall_forall in Hx. now apply Hx.
Qed.

Lemma list_last_nonempty (x : A) (l : list A) :
  exists m, list_last (x :: l) = Ok m.
Proof.
  revert x. induction l as [| y l IH]; intros x; [now exists x |].
  destruct (IH y) as [m Hm]. now exists m.
Qed.

Lemma list_last_app (l : list A) (x : A) : list_last (l ++ [x]) = Ok x.
Proof.
  induction l as [| y l IH]; [reflexivity |].
  destruct l as [| z l]; [reflexivity |]. exact IH.
Qed.
End SortFacts.

(** The two instances used by the program: distances and face counts. *)

Section SortInstances.
Variable sc : scene.

Lemma sort_distance_sorted (l : list string) :
  StronglySorted (le_distance sc)
                 (sort_by Rltb (distance_from_center sc) l).
Proof.
  apply (@sort_by_sorted string R Rltb (distance_from_center sc) Rle).
  - intros a b H. now apply Rltb_false.
  - intros a b H. apply Rltb_true in H. lra.
  - intros a b c; lra.
Qed.

Lemma sort_faces_sorted (l : list string) :
  StronglySorted (le_faces sc) (sort_by Z.ltb (get_faces sc) l).
Proof.
  apply (@sort_by_sorted string Z Z.ltb (get_faces sc) Z.le).
  - intros a b H. apply Z.ltb_ge in H. lia.
  - intros a b H. apply Z.ltb_lt in H. lia.
  - intros a b c; lia.
Qed.
End SortInstances.

(** ** Predicates on lists of fewer than two objects *)

Lemma right_order_inner_self (sc : scene) (obj solid_name : string) :
  right_order_inner sc obj solid_name [obj] = true.
Proof.
  simpl. rewrite Rltb_irrefl. now destruct (contains solid_name obj).
Qed.

(** C3. On a list of fewer than two objects [check_if_in_line],
    [if_right_order] and [if_right_order_poly] return [True], but
    [if_equally_spaced] does not: it raises [IndexError] when it reads
    [distance_from_origin[1]]. *)
Theorem fewer_than_two_objects (sc : scene) (obj_list : list string) :
  (List.length obj_list < 2)%nat ->
  check_if_in_line sc obj_list = true
  /\ if_right_order sc obj_list = Ok true
  /\ if_right_order_poly sc obj_list = true
  /\ if_equally_spaced sc obj_list = Raise IndexError.
Proof.
  intros Hlen. destruct obj_list as [| obj [| obj' rest]];
    [| | simpl in Hlen; lia].
  - repeat split; reflexivity.
  - repeat split; try reflexivity.
    + unfold if_right_order. cbn [right_order_outer].
      destruct (contains "pSphere" obj) eqn:E; [| reflexivity].
      destruct (contains_pSphere_last _ E) as [d ->]. cbn [bind].
      now rewrite right_order_inner_self.
    + unfold if_right_order_poly. simpl filter.
      now destruct (contains "pSolid" obj).
Qed.

Lemma fewer_than_two_objects_witness :
  (List.length ["pSphere1"%string] < 2)%nat
  /\ check_if_in_line (scene_of [] []) ["pSphere1"%string] = true
  /\ if_right_order (scene_of [] []) ["pSphere1"%string] = Ok true
  /\ if_right_order_poly (scene_of [] []) ["pSphere1"%string] = true
  /\ if_equally_spaced (scene_of [] []) ["pSphere1"%string]
     = Raise IndexError.
Proof.
  split; [simpl; lia | apply fewer_than_two_objects; simpl; lia].
Defined.

(** ** Correcting a set without spheres *)

Lemma furthest_of_none (sc : scene) (obj_list : list string) :
  no_of_spheres obj_list = 0%nat ->
  distance_for_furthestsphere sc obj_list = Raise IndexError.
Proof.
  unfold no_of_spheres. intros H. apply length_zero_iff_nil in H.
  unfold distance_for_furthestsphere. now rewrite H.
Qed.

(** C4 (as amended). When no object is a sphere, [fix_arrangement]
    fails, with the [IndexError] raised by [sphere[-1]] in
    [distance_for_furthestsphere]; the division [distance /
    no_of_spheres] is not reached. *)
Theorem fix_arrangement_no_spheres (sc : scene) (obj_list : list string) :
  no_of_spheres obj_list = 0%nat ->
  distance_for_furthestsphere sc obj_list = Raise IndexError
  /\ fix_arrangement sc obj_list = Raise IndexError.
Proof.
  intros H. pose proof (furthest_of_none sc obj_list H) as Hd.
  split; [exact Hd |]. unfold fix_arrangement. now rewrite Hd.
Qed.

Lemma fix_arrangement_no_spheres_witness :
  no_of_spheres ["pSolid1"%string] = 0%nat
  /\ distance_for_furthestsphere (scene_of [] []) ["pSolid1"%string]
     = Raise IndexError
  /\ fix_arrangement (scene_of [] []) ["pSolid1"%string] = Raise IndexError.
Proof.
  split; [reflexivity | apply fix_arrangement_no_spheres; reflexivity].
Defined.

(** C4 as stated does not hold: on a list without spheres the error is
    not a division by zero. *)
Lemma no_spheres_not_zero_division :
  ~ (forall (sc : scene) (obj_list : list string),
        no_of_spheres obj_list = 0%nat ->
        fix_arrangement sc obj_list = Raise ZeroDivisionError).
Proof.
  intros H. specialize (H (scene_of [] []) ["pSolid1"%string] eq_refl).
  discriminate H.
Qed.

(** ** Face-count ordering *)




(** ** The correction: where each object is put *)

Lemma place_translate (s : R) (sc : scene) (i : nat) (obj obj' : string) :
  translate (place s sc (i, obj)) obj'
  = if String.eqb obj obj' then (s * INR (i + 1), 0, 0) else translate sc obj'.
Proof.
  unfold place, setAttr_translateX, setAttr_translateY, setAttr_translateZ.
  destruct (translate sc obj) as [[x y] z]. simpl. unfold upd.
  rewrite String.eqb_refl. simpl. rewrite String.eqb_refl. simpl.
  now destruct (String.eqb obj obj').
Qed.

Lemma place_faces (s : R) (sc : scene) (entry : nat * string) :
  poly_faces (place s sc entry) = poly_faces sc.
Proof.
  destruct entry as [i obj].
  unfold place, setAttr_translateX, setAttr_translateY, setAttr_translateZ.
  destruct (translate sc obj) as [[x y] z]. simpl. unfold upd.
  rewrite String.eqb_refl. simpl. now rewrite String.eqb_refl.
Qed.

Lemma place_all_faces (s : R) (l : list string) (k : nat) (sc : scene) :
  poly_faces (fold_left (place s) (combine (seq k (List.length l)) l) sc)
  = poly_faces sc.
Proof.
  revert k sc. induction l as [| a l IH]; intros k sc; [reflexivity |].
  cbn [fold_left combine seq List.length]. rewrite IH. apply place_faces.
Qed.

Lemma place_all_other (s : R) (l : list string) (k : nat) (sc : scene)
    (obj : string) :
  ~ In obj l ->
  translate (fold_left (place s) (combine (seq k (List.length l)) l) sc) obj
  = translate sc obj.
Proof.
  revert k sc. induction l as [| a l IH]; intros k sc Hn; [reflexivity |].
  cbn [fold_left combine seq List.length].
  rewrite IH by (intros H; apply Hn; now right).
  rewrite place_translate. destruct (String.eqb_spec a obj) as [-> | _].
  - exfalso. apply Hn. now left.
  - reflexivity.
Qed.

Lemma place_all_nth (s : R) (l : list string) (k : nat) (sc : scene)
    (i : nat) (obj : string) :
  NoDup l -> nth_error l i = Some obj ->
  translate (fold_left (place s) (combine (seq k (List.length l)) l) sc) obj
  = (s * INR (k + i + 1), 0, 0).
Proof.
  revert k sc i. induction l as [| a l IH]; intros k sc i Hnd Hi.
  - destruct i; discriminate.
  - apply NoDup_cons_iff in Hnd. destruct Hnd as [Ha Hnd].
    cbn [fold_left combine seq List.length]. destruct i as [| i].
    + simpl in Hi. inversion Hi; subst a.
      rewrite place_all_other by exact Ha.
      rewrite place_translate, String.eqb_refl.
      now rewrite Nat.add_0_r.
    + simpl in Hi. rewrite (IH (S k) _ i Hnd Hi).
      do 3 f_equal. f_equal. lia.
Qed.

Lemma filter_split_perm {A : Type} (f : A -> bool) (l : list A) :
  Permutation (filter f l ++ filter (fun a => negb (f a)) l) l.
Proof.
  induction l as [| a l IH]; simpl; [constructor |].
  destruct (f a); simpl.
  - now constructor.
  - rewrite <- Permutation_middle. now constructor.
Qed.

Lemma new_order_perm (sc : scene) (obj_list : list string) :
  Permutation (new_order_for_fixed_arrangement sc obj_list) obj_list.
Proof.
  unfold new_order_for_fixed_arrangement.
  rewrite !sort_by_perm. apply filter_split_perm.
Qed.

Lemma furthest_sphere_exists (sc : scene) (obj_list : list string) :
  (0 < no_of_spheres obj_list)%nat ->
  exists m,
    list_last (sort_by Rltb (distance_from_center sc)
                       (filter (contains "pSphere") obj_list)) = Ok m
    /\ In m obj_list /\ contains "pSphere" m = true
    /\ distance_for_furthestsphere sc obj_list
       = Ok (distance_from_center sc m)
    /\ forall a, In a obj_list -> contains "pSphere" a = true ->
                 distance_from_center sc a <= distance_from_center sc m.
Proof.
  unfold no_of_spheres. intros Hn.
  set (S := sort_by Rltb (distance_from_center sc)
                    (filter (contains "pSphere") obj_list)).
  assert (HS : exists m, list_last S = Ok m).
  { assert (Hlen : (0 < List.length S)%nat)
      by (unfold S; now rewrite sort_by_length).
    destruct S as [| x S']; [simpl in Hlen; lia |].
    apply list_last_nonempty. }
  destruct HS as [m Hm]. exists m.
  destruct (@sorted_last_max string R (distance_from_center sc) Rle
              (fun a => Rle_refl a) S m) as [Hin Hmax].
  { apply sort_distance_sorted. }
  { exact Hm. }
  apply sort_by_In, filter_In in Hin. destruct Hin as [Hin Hsp].
  repeat split; try assumption.
  - unfold distance_for_furthestsphere. fold S. now rewrite Hm.
  - intros a Ha Hc. apply Hmax. apply sort_by_In, filter_In. now split.
Qed.

(** What [fix_arrangement] does on a duplicate-free list with a sphere:
    it succeeds, and the object at index [i] of the new order is put at
    [(s * (i + 1), 0, 0)]; nothing else in the scene changes. *)
Lemma fix_arrangement_positions (sc : scene) (obj_list : list string) :
  NoDup obj_list -> (0 < no_of_spheres obj_list)%nat ->
  exists D sc',
    distance_for_furthestsphere sc obj_list = Ok D
    /\ fix_arrangement sc obj_list = Ok sc'
    /\ poly_faces sc' = poly_faces sc
    /\ (forall obj, ~ In obj obj_list -> translate sc' obj = translate sc obj)
    /\ (forall i obj,
          nth_error (new_order_for_fixed_arrangement sc obj_list) i = Some obj ->
          translate sc' obj
          = (D / INR (no_of_spheres obj_list) * INR (i + 1), 0, 0)).
Proof.
  intros Hnd Hn.
  destruct (furthest_sphere_exists sc obj_list Hn) as (m & _ & _ & _ & HD & _).
  exists (distance_from_center sc m).
  unfold fix_arrangement. rewrite HD. cbn [bind].
  destruct (no_of_spheres obj_list) as [| n] eqn:En; [lia |].
  cbn [py_div bind]. eexists. split; [reflexivity |].
  split; [reflexivity |]. unfold enumerate. split; [| split].
  - apply place_all_faces.
  - intros obj Hobj. apply place_all_other. intros H. apply Hobj.
    eapply Permutation_in; [apply new_order_perm | exact H].
  - intros i obj Hi. erewrite place_all_nth; [reflexivity | | exact Hi].
    eapply Permutation_NoDup; [symmetry; apply new_order_perm | exact Hnd].
Qed.

Lemma new_order_agree (sc : scene) (obj_list : list string) :
  markers_agree obj_list ->
  new_order_for_fixed_arrangement sc obj_list
  = sort_by Rltb (distance_from_center sc)
            (filter (contains "pSphere") obj_list)
    ++ sort_by Z.ltb (get_faces sc)
               (filter (fun o => negb (contains "pSphere" o)) obj_list).
Proof.
  intros Hag. unfold new_order_for_fixed_arrangement. f_equal; f_equal.
  - apply filter_ext_in. exact Hag.
  - apply filter_ext_in. intros a Ha. now rewrite (Hag a Ha).
Qed.


(** ** A polygon sphere and a NURBS sphere *)

Lemma mixed_distance_pSphere1 :
  distance_from_center mixed_scene "pSphere1" = 2.
Proof. apply distance_from_center_x_axis; [reflexivity | lra]. Qed.

Lemma mixed_distance_nurbsSphere1 :
  distance_from_center mixed_scene "nurbsSphere1" = 1.
Proof. apply distance_from_center_x_axis; [reflexivity | lra]. Qed.

(** Any scene in which the NURBS sphere is nearer than the polygon
    sphere behaves alike. *)
Section MixedRun.
Variable sc : scene.
Let d_p : R := distance_from_center sc "pSphere1".
Let d_n : R := distance_from_center sc "nurbsSphere1".
Hypothesis nurbs_nearer : d_n < d_p.

Lemma mixed_new_order :
  new_order_for_fixed_arrangement sc mixed_objects
  = ["nurbsSphere1"; "pSphere1"]%string.
Proof.
  unfold new_order_for_fixed_arrangement.
  replace (filter (contains "Sphere") mixed_objects)
    with ["pSphere1"; "nurbsSphere1"]%string by reflexivity.
  replace (filter (fun obj => negb (contains "Sphere" obj)) mixed_objects)
    with (@nil string) by reflexivity.
  cbn [sort_by insert app]. fold d_p d_n.
  replace (Rltb d_n d_p) with true by (symmetry; now apply Rltb_true).
  reflexivity.
Qed.

Lemma mixed_furthest :
  distance_for_furthestsphere sc mixed_objects = Ok d_p.
Proof.
  unfold distance_for_furthestsphere.
  replace (filter (contains "pSphere") mixed_objects)
    with ["pSphere1"%string] by reflexivity.
  reflexivity.
Qed.

Lemma mixed_run :
  exists sc',
    fix_arrangement sc mixed_objects = Ok sc'
    /\ translate sc' "nurbsSphere1" = (d_p, 0, 0)
    /\ translate sc' "pSphere1" = (2 * d_p, 0, 0).
Proof.
  assert (Hnd : NoDup mixed_objects).
  { repeat constructor; simpl; intuition discriminate. }
  assert (Hn : (0 < no_of_spheres mixed_objects)%nat) by (cbv; lia).
  destruct (fix_arrangement_positions sc Hnd Hn)
    as (D & sc' & HD & Hfix & _ & _ & Hpos).
  rewrite mixed_furthest in HD. inversion HD; subst D.
  rewrite mixed_new_order in Hpos.
  exists sc'. split; [exact Hfix |]. split.
  - rewrite (Hpos 0%nat _ eq_refl). cbn. f_equal. f_equal. lra.
  - rewrite (Hpos 1%nat _ eq_refl). cbn. f_equal. f_equal. lra.
Qed.
End MixedRun.

Lemma mixed_fix :
  exists sc',
    fix_arrangement mixed_scene mixed_objects = Ok sc'
    /\ translate sc' "nurbsSphere1" = (2, 0, 0)
    /\ translate sc' "pSphere1" = (4, 0, 0).
Proof.
  destruct (@mixed_run mixed_scene) as (sc' & Hfix & Hn & Hp).
  { rewrite mixed_distance_pSphere1, mixed_distance_nurbsSphere1. lra. }
  rewrite mixed_distance_pSphere1 in Hn, Hp.
  exists sc'. split; [exact Hfix |]. split; [exact Hn |].
  rewrite Hp. replace (2 * 2) with 4 by lra. reflexivity.
Qed.

(** C1. With a polygon sphere at distance 2 and a NURBS sphere at
    distance 1, [fix_arrangement] counts one sphere (spacing 2) but
    orders both as spheres: the NURBS sphere goes to 2 and the polygon
    sphere to 4.  This is not the canonical arrangement, whichever of
    the two markers is taken to define a sphere. *)
Theorem mixed_spheres_not_canonical :
  exists sc',
    fix_arrangement mixed_scene mixed_objects = Ok sc'
    /\ translate sc' "nurbsSphere1" = (2, 0, 0)
    /\ translate sc' "pSphere1" = (4, 0, 0)
    /\ ~ placed_canonically (contains "pSphere") mixed_scene mixed_objects sc'
    /\ ~ placed_canonically (contains "Sphere") mixed_scene mixed_objects sc'.
Proof.
  destruct mixed_fix as (sc' & Hfix & Hn & Hp).
  exists sc'. repeat split; try assumption.
  - intros (spheres & solids & D & HP & _ & _ & _ & (m & Hm & HD) & _ & Hpos).
    replace (filter (contains "pSphere") mixed_objects)
      with ["pSphere1"%string] in HP by reflexivity.
    symmetry in HP. apply Permutation_length_1_inv in HP. subst spheres.
    destruct Hm as [<- | []]. rewrite mixed_distance_pSphere1 in HD. subst D.
    specialize (Hpos 0%nat _ eq_refl). rewrite Hp in Hpos.
    cbn in Hpos. inversion Hpos. lra.
  - intros (spheres & solids & D & HP & _ & _ & _ & (m & Hm & HD) & Hmax & Hpos).
    replace (filter (contains "Sphere") mixed_objects)
      with ["pSphere1"; "nurbsSphere1"]%string in HP by reflexivity.
    assert (Hlen : List.length spheres = 2%nat)
      by (now rewrite (Permutation_length HP)).
    assert (HD2 : D = 2).
    { assert (H2 : 2 <= D).
      { rewrite <- mixed_distance_pSphere1. apply Hmax.
        eapply Permutation_in; [symmetry; exact HP | now left]. }
      apply (Permutation_in _ HP) in Hm.
      destruct Hm as [<- | [<- | []]].
      - rewrite HD. apply mixed_distance_pSphere1.
      - rewrite mixed_distance_nurbsSphere1 in HD. lra. }
    destruct spheres as [| o rest]; [discriminate |].
    specialize (Hpos 0%nat o eq_refl). rewrite Hlen, HD2 in Hpos.
    assert (Ho : In o ["pSphere1"; "nurbsSphere1"]%string)
      by (eapply Permutation_in; [exact HP | now left]).
    cbn in Hpos.
    destruct Ho as [<- | [<- | []]].
    + rewrite Hp in Hpos. inversion Hpos. lra.
    + rewrite Hn in Hpos. inversion Hpos. lra.
Qed.

(** ** The polygon sphere and the NURBS sphere as a list *)

Lemma mixed_NoDup : NoDup mixed_objects.
Proof. repeat constructor; simpl; intuition discriminate. Qed.

Lemma mixed_has_sphere : (0 < no_of_spheres mixed_objects)%nat.
Proof. cbv. lia. Qed.

(** ** Running the correction twice *)

(** C9. On the polygon sphere and the NURBS sphere above a second run
    of [fix_arrangement], on the output of the first and with names and
    face counts unchanged, does not reproduce the first: the furthest
    sphere's distance has grown from 2 to 4, so the spacing doubles and
    both objects move again. *)
Theorem fix_arrangement_twice_mixed :
  exists sc1 sc2,
    fix_arrangement mixed_scene mixed_objects = Ok sc1
    /\ fix_arrangement sc1 mixed_objects = Ok sc2
    /\ poly_faces sc1 = poly_faces mixed_scene
    /\ distance_for_furthestsphere mixed_scene mixed_objects = Ok 2
    /\ distance_for_furthestsphere sc1 mixed_objects = Ok 4
    /\ new_order_for_fixed_arrangement sc1 mixed_objects
       = new_order_for_fixed_arrangement mixed_scene mixed_objects
    /\ translate sc1 "nurbsSphere1" = (2, 0, 0)
    /\ translate sc1 "pSphere1" = (4, 0, 0)
    /\ translate sc2 "nurbsSphere1" = (4, 0, 0)
    /\ translate sc2 "pSphere1" = (8, 0, 0).
Proof.
  destruct mixed_fix as (sc1 & Hfix1 & Hn1 & Hp1).
  assert (Hdp : distance_from_center sc1 "pSphere1" = 4)
    by (apply distance_from_center_x_axis; [exact Hp1 | lra]).
  assert (Hdn : distance_from_center sc1 "nurbsSphere1" = 2)
    by (apply distance_from_center_x_axis; [exact Hn1 | lra]).
  assert (Hlt0 : distance_from_center mixed_scene "nurbsSphere1"
                 < distance_from_center mixed_scene "pSphere1")
    by (rewrite mixed_distance_pSphere1, mixed_distance_nurbsSphere1; lra).
  assert (Hlt1 : distance_from_center sc1 "nurbsSphere1"
                 < distance_from_center sc1 "pSphere1")
    by (rewrite Hdp, Hdn; lra).
  destruct (@mixed_run sc1 Hlt1) as (sc2 & Hfix2 & Hn2 & Hp2).
  rewrite Hdp in Hn2, Hp2.
  exists sc1, sc2.
  split; [exact Hfix1 |]. split; [exact Hfix2 |].
  split.
  { destruct (fix_arrangement_positions mixed_scene mixed_NoDup
                mixed_has_sphere) as (D & sc' & _ & Hfix & Hf & _).
    rewrite Hfix1 in Hfix. inversion Hfix. subst sc'. exact Hf. }
  split; [rewrite (mixed_furthest mixed_scene); f_equal;
          apply mixed_distance_pSphere1 |].
  split; [rewrite (mixed_furthest sc1); f_equal; exact Hdp |].
  split; [now rewrite (@mixed_new_order sc1 Hlt1),
                     (@mixed_new_order mixed_scene Hlt0) |].
  split; [exact Hn1 |]. split; [exact Hp1 |]. split; [exact Hn2 |].
  rewrite Hp2. replace (2 * 4) with 8 by lra. reflexivity.
Qed.

(** ** The entry point: when the correction is called *)

Lemma fix_and_print_run (obj_list : list string) (line : string) (w : world) :
  fix_and_print obj_list line w
  = match fix_arrangement (w_scene w) obj_list with
    | Ok sc' =>
        (Ok tt, mkWorld sc' ((w_log w ++ [Fix_called obj_list])
                               ++ [Printed line]))
    | Raise e =>
        (Raise e, mkWorld (w_scene w) (w_log w ++ [Fix_called obj_list]))
    end.
Proof.
  unfold fix_and_print, mbind, emit, read_scene, lift, write_scene. simpl.
  now destruct (fix_arrangement (w_scene w) obj_list).
Qed.

Lemma fix_arrangement_succeeds (sc : scene) (obj_list : list string) :
  (0 < no_of_spheres obj_list)%nat ->
  exists sc', fix_arrangement sc obj_list = Ok sc'.
Proof.
  intros Hn.
  destruct (furthest_sphere_exists sc obj_list Hn) as (m & _ & _ & _ & HD & _).
  unfold fix_arrangement. rewrite HD. cbn [bind].
  destruct (no_of_spheres obj_list); [lia |]. cbn [py_div bind]. eauto.
Qed.

(** One guarded correction step: it adds one call to the log when the
    guard holds and none otherwise, and it can only fail when the guard
    holds. *)
Lemma when_fix_calls (b : bool) (obj_list : list string) (line : string)
    (w : world) :
  let out := when b (fix_and_print obj_list line) w in
  fix_calls (w_log (snd out))
  = fix_calls (w_log w) ++ (if b then [Fix_called obj_list] else [])
  /\ (fst out = Ok tt \/ (b = true /\ exists e, fst out = Raise e))
  /\ ((0 < no_of_spheres obj_list)%nat -> fst out = Ok tt).
Proof.
  destruct b; simpl.
  - rewrite fix_and_print_run.
    destruct (fix_arrangement (w_scene w) obj_list) eqn:E; simpl;
      unfold fix_calls.
    + rewrite !filter_app. simpl. rewrite app_nil_r. auto.
    + rewrite filter_app. simpl. split; [reflexivity |].
      split; [right; eauto |]. intros Hn.
      destruct (fix_arrangement_succeeds (w_scene w) obj_list Hn) as [sc' H].
      congruence.
  - unfold mret. simpl. rewrite app_nil_r. auto.
Qed.

Lemma three_guarded_fixes (b1 b2 b3 : bool) (obj_list : list string)
    (l1 l2 l3 : string) (w : world) :
  w_log w = [] ->
  let out := (when b1 (fix_and_print obj_list l1) ;;;
              when b2 (fix_and_print obj_list l2) ;;;
              when b3 (fix_and_print obj_list l3))%world w in
  let calls := fix_calls (w_log (snd out)) in
  (calls <> [] <-> b1 = true \/ b2 = true \/ b3 = true)
  /\ (List.length calls <= 3)%nat
  /\ (forall e, In e calls -> e = Fix_called obj_list)
  /\ (fst out = Ok tt ->
      List.length calls
      = (Nat.b2n b1 + Nat.b2n b2 + Nat.b2n b3)%nat)
  /\ ((0 < no_of_spheres obj_list)%nat -> fst out = Ok tt).
Proof.
  intros Hlog. unfold mbind.
  destruct (when_fix_calls b1 obj_list l1 w) as (Hc1 & Hr1 & Hk1).
  destruct (when b1 (fix_and_print obj_list l1) w) as [r1 w1].
  simpl in Hc1, Hr1, Hk1. rewrite Hlog in Hc1. simpl in Hc1.
  destruct r1 as [[] | e1].
  - destruct (when_fix_calls b2 obj_list l2 w1) as (Hc2 & Hr2 & Hk2).
    destruct (when b2 (fix_and_print obj_list l2) w1) as [r2 w2].
    simpl in Hc2, Hr2, Hk2. rewrite Hc1 in Hc2.
    destruct r2 as [[] | e2].
    + destruct (when_fix_calls b3 obj_list l3 w2) as (Hc3 & Hr3 & Hk3).
      destruct (when b3 (fix_and_print obj_list l3) w2) as [r3 w3].
      simpl in Hc3, Hr3, Hk3. rewrite Hc2 in Hc3. simpl. rewrite Hc3.
      destruct b1, b2, b3; simpl; repeat split; intros;
        try lia; try discriminate; try tauto; try intuition congruence.
    + destruct Hr2 as [Hr2 | [-> _]]; [discriminate |].
      simpl. rewrite Hc2.
      destruct b1; simpl; repeat split; intros;
        try lia; try discriminate; try tauto; try intuition congruence.
  - destruct Hr1 as [Hr1 | [-> _]]; [discriminate |].
    simpl. rewrite Hc1.
    simpl; repeat split; intros;
      try lia; try discriminate; try tauto; try intuition congruence.
Qed.

(** Once the predicates are known, the entry point is the chain of its
    three guarded corrections. *)
Lemma entry_point_unfold (sc : scene) (listRelatives : list string)
    (equally_spaced in_line right_order2 right_order : bool) :
  let obj_list := checked_list sc listRelatives in
  if_equally_spaced sc obj_list = Ok equally_spaced ->
  check_if_in_line sc obj_list = in_line ->
  if_right_order_poly sc obj_list = right_order2 ->
  if_right_order sc obj_list = Ok right_order ->
  arrangement_check_and_fix listRelatives (mkWorld sc [])
  = (when (negb equally_spaced)
       (fix_and_print obj_list
          "Objects were not equally spaced and are fixed") ;;;
     when (negb in_line)
       (fix_and_print obj_list
          "Objects were not in one line and are fixed") ;;;
     when (negb (right_order || right_order2))
       (fix_and_print obj_list
          "Objects were not in right order and are fixed"))%world
      (mkWorld sc []).
Proof.
  intros obj_list Heq Hline Hpoly Hord.
  unfold arrangement_check_and_fix.
  unfold mbind at 1. unfold read_scene at 1. cbn [w_scene].
  fold (checked_list sc listRelatives). fold obj_list.
  unfold mbind at 1. unfold lift at 1. rewrite Heq.
  unfold mbind at 1. unfold lift at 1. rewrite Hord.
  now rewrite Hline, Hpoly.
Qed.



Lemma sort_by_two_keep {A : Type} (key : A -> R) (a b : A) :
  key a <= key b -> sort_by Rltb key [a; b] = [a; b].
Proof.
  intros H. simpl. now replace (Rltb (key b) (key a)) with false
    by (symmetry; now apply Rltb_false).
Qed.

(** ** Sphere-before-solid ordering *)

Lemma right_order_inner_false (sc : scene) (obj solid_name : string)
    (l : list string) :
  right_order_inner sc obj solid_name l = false <->
  exists obj2,
    In obj2 l /\ contains solid_name obj2 = true
    /\ distance_from_center sc obj2 < distance_from_center sc obj.
Proof.
  induction l as [| x l IH]; simpl.
  - split; [discriminate | intros (o & [] & _)].
  - destruct (contains solid_name x) eqn:Ec.
    + destruct (Rltb (distance_from_center sc x) (distance_from_center sc obj))
        eqn:El.
      * split; [intros _ | reflexivity].
        exists x. apply Rltb_true in El. auto.
      * rewrite IH. apply Rltb_false in El. split.
        -- intros (o & Ho & H). exists o. auto.
        -- intros (o & [<- | Ho] & Hc & Hd); [lra |]. exists o. auto.
    + rewrite IH. split.
      * intros (o & Ho & H). exists o. auto.
      * intros (o & [<- | Ho] & Hc & Hd); [congruence |]. exists o. auto.
Qed.

Lemma right_order_outer_spec (sc : scene) (obj_list l : list string) :
  exists b,
    right_order_outer sc obj_list l = Ok b
    /\ (b = false <->
        exists obj obj2,
          In obj l /\ contains "pSphere" obj = true
          /\ In obj2 obj_list /\ last_char_solid obj obj2
          /\ distance_from_center sc obj2 < distance_from_center sc obj).
Proof.
  induction l as [| x l (b & Hb & IH)].
  - exists true. split; [reflexivity |].
    split; [discriminate | intros (o & o2 & [] & _)].
  - cbn [right_order_outer].
    destruct (contains "pSphere" x) eqn:Ex.
    + destruct (contains_pSphere_last _ Ex) as [index Hidx].
      rewrite Hidx. cbn [bind].
      destruct (right_order_inner sc x
                  ("pSolid" ++ String index EmptyString) obj_list) eqn:Ein.
      * exists b. split; [exact Hb |]. rewrite IH. split.
        -- intros (o & o2 & Ho & H). exists o, o2. split; [now right | exact H].
        -- intros (o & o2 & [<- | Ho] & Hs & Ho2 & (c & Hc & Hpair) & Hd).
           ++ rewrite Hidx in Hc. inversion Hc; subst c.
              assert (F : right_order_inner sc x
                            ("pSolid" ++ String index EmptyString) obj_list
                          = false)
                by (apply right_order_inner_false; exists o2; auto).
              congruence.
           ++ exists o, o2. repeat split; try assumption. now exists c.
      * exists false. split; [reflexivity |]. split; [intros _ | reflexivity].
        apply right_order_inner_false in Ein.
        destruct Ein as (o2 & Ho2 & Hc & Hd).
        exists x, o2. repeat split; try assumption;
          [now left | now exists index].
    + exists b. split; [exact Hb |]. rewrite IH. split.
      * intros (o & o2 & Ho & H). exists o, o2. split; [now right | exact H].
      * intros (o & o2 & [<- | Ho] & Hs & H); [congruence |].
        exists o, o2. auto.
Qed.

(** [if_right_order] never raises, and it returns [False] exactly when
    a sphere has a solid, paired with it by the sphere's last
    character, that is strictly nearer to the origin. *)
Lemma if_right_order_last_char (sc : scene) (obj_list : list string) :
  exists b,
    if_right_order sc obj_list = Ok b
    /\ (b = false <->
        exists obj obj2,
          In obj obj_list /\ contains "pSphere" obj = true
          /\ In obj2 obj_list /\ last_char_solid obj obj2
          /\ distance_from_center sc obj2 < distance_from_center sc obj).
Proof. apply right_order_outer_spec. Qed.

Lemma twelfth_distances :
  distance_from_center twelfth_scene "pSolid12"
  < distance_from_center twelfth_scene "pSphere12".
Proof.
  rewrite (@distance_from_center_x_axis twelfth_scene "pSolid12" 1),
          (@distance_from_center_x_axis twelfth_scene "pSphere12" 5);
    try reflexivity; lra.
Qed.

Lemma first_twelfth_distances :
  distance_from_center first_twelfth_scene "pSolid12"
  < distance_from_center first_twelfth_scene "pSphere1".
Proof.
  rewrite (@distance_from_center_x_axis first_twelfth_scene "pSolid12" 1),
          (@distance_from_center_x_axis first_twelfth_scene "pSphere1" 5);
    try reflexivity; lra.
Qed.

(** C6. [if_right_order] pairs a sphere with the solids whose name
    contains ["pSolid"] followed by the sphere's last character, not
    with the solid of the same index.  With the sphere [pSphere12] and
    its solid [pSolid12] nearer to the origin it returns [True]; with
    the sphere [pSphere1] and the unrelated solid [pSolid12] nearer to
    the origin it returns [False]. *)
Theorem if_right_order_two_digit_index :
  (if_right_order twelfth_scene twelfth_objects = Ok true
   /\ exists sphere solid,
       In sphere twelfth_objects /\ In solid twelfth_objects
       /\ contains "pSphere" sphere = true
       /\ same_index_solid sphere solid = true
       /\ distance_from_center twelfth_scene solid
          < distance_from_center twelfth_scene sphere)
  /\ (if_right_order first_twelfth_scene first_twelfth_objects = Ok false
      /\ forall sphere solid,
          In sphere first_twelfth_objects -> In solid first_twelfth_objects ->
          contains "pSphere" sphere = true ->
          same_index_solid sphere solid = false).
Proof.
  split; split.
  - reflexivity.
  - exists "pSphere12"%string, "pSolid12"%string.
    split; [now left |]. split; [right; now left |].
    split; [reflexivity |]. split; [reflexivity |].
    apply twelfth_distances.
  - destruct (if_right_order_last_char first_twelfth_scene
                first_twelfth_objects) as (b & Hb & Hiff).
    rewrite Hb. f_equal. apply Hiff.
    exists "pSphere1"%string, "pSolid12"%string.
    split; [now left |]. split; [reflexivity |]. split; [right; now left |].
    split; [| apply first_twelfth_distances].
    exists "1"%char. split; reflexivity.
  - intros sphere solid [<- | [<- | []]] [<- | [<- | []]] Hs;
      try reflexivity; discriminate Hs.
Qed.

Lemma if_right_order_two_digit_index_witness :
  In "pSphere1"%string first_twelfth_objects
  /\ In "pSolid12"%string first_twelfth_objects
  /\ contains "pSphere" "pSphere1" = true
  /\ same_index_solid "pSphere1" "pSolid12" = false.
Proof.
  assert (H1 : In "pSphere1"%string first_twelfth_objects) by now left.
  assert (H2 : In "pSolid12"%string first_twelfth_objects)
    by (right; now left).
  split; [exact H1 |]. split; [exact H2 |]. split; [reflexivity |].
  exact (proj2 (proj2 if_right_order_two_digit_index) _ _ H1 H2 eq_refl).
Defined.

Example numeric_suffix_pSphere12 : numeric_suffix "pSphere12" = "12"%string.
Proof. reflexivity. Qed.

Example numeric_suffix_inner_digit : numeric_suffix "pSolid1_2" = "2"%string.
Proof. reflexivity. Qed.

(** ** Collinearity *)

Lemma point_eq_inv (a0 a1 a2 b0 b1 b2 : R) :
  (a0, a1, a2) = (b0, b1, b2) -> a0 = b0 /\ a1 = b1 /\ a2 = b2.
Proof. intros H. inversion H. auto. Qed.

Lemma point_eq (a0 a1 a2 b0 b1 b2 : R) :
  a0 = b0 -> a1 = b1 -> a2 = b2 -> (a0, a1, a2) = (b0, b1, b2).
Proof. intros -> -> ->. reflexivity. Qed.

(** A vector whose cross product with a non-zero [d] vanishes is a
    multiple of [d]. *)
Lemma cross_zero_parallel (d w : point) :
  d <> (0, 0, 0) -> cross_product d w = (0, 0, 0) ->
  exists l, w = line_point (0, 0, 0) d l.
Proof.
  destruct d as [[d0 d1] d2], w as [[w0 w1] w2]. intros Hd Hc.
  apply point_eq_inv in Hc. destruct Hc as (H0 & H1 & H2).
  destruct (Req_dec d0 0) as [E0 | N0].
  - destruct (Req_dec d1 0) as [E1 | N1].
    + destruct (Req_dec d2 0) as [E2 | N2].
      * subst. now contradict Hd.
      * exists (w2 / d2). subst d0 d1. simpl. apply point_eq.
        -- assert (d2 * w0 = 0) by lra. assert (w0 = 0) by nra. lra.
        -- assert (d2 * w1 = 0) by lra. assert (w1 = 0) by nra. lra.
        -- field. exact N2.
    + exists (w1 / d1). simpl. apply point_eq.
      * subst d0. assert (d1 * w0 = 0) by lra. assert (w0 = 0) by nra. lra.
      * field. exact N1.
      * assert (w2 * d1 = w1 * d2) by lra.
        replace (0 + w1 / d1 * d2) with (w1 * d2 / d1) by (field; exact N1).
        rewrite <- H. field. exact N1.
  - exists (w0 / d0). simpl. apply point_eq.
    + field. exact N0.
    + assert (w1 * d0 = w0 * d1) by lra.
      replace (0 + w0 / d0 * d1) with (w0 * d1 / d0) by (field; exact N0).
      rewrite <- H. field. exact N0.
    + assert (w2 * d0 = w0 * d2) by lra.
      replace (0 + w0 / d0 * d2) with (w0 * d2 / d0) by (field; exact N0).
      rewrite <- H. field. exact N0.
Qed.

(** Displacements between points of one line have a vanishing cross
    product. *)
Lemma cross_on_line (p d : point) (a b c : R) :
  cross_product (vector_bw_obj (line_point p d a) (line_point p d b))
                (vector_bw_obj (line_point p d b) (line_point p d c))
  = (0, 0, 0).
Proof.
  destruct p as [[p0 p1] p2], d as [[d0 d1] d2]. simpl.
  apply point_eq; ring.
Qed.

(** Two distinct points of a line and a point off it, in any of the
    three orders, give a non-vanishing cross product. *)
Section OffLine.
Variables (p d q : point) (a b : R).
Hypothesis d_nonzero : d <> (0, 0, 0).
Hypothesis distinct : a <> b.
Hypothesis off_line : ~ on_line p d q.

Let A : point := line_point p d a.
Let B : point := line_point p d b.

Lemma off_line_parallel (base : R) (w : point) (k : R) :
  k <> 0 ->
  (forall l, w = line_point (0, 0, 0) d l ->
             q = line_point p d (base + l) \/ q = line_point p d (base - l)) ->
  (let '(c0, c1, c2) := cross_product d w in (k * c0, k * c1, k * c2))
  <> (0, 0, 0).
Proof.
  intros Hk Hq Hc.
  destruct (cross_product d w) as [[c0 c1] c2] eqn:Ecross.
  apply point_eq_inv in Hc. destruct Hc as (H0 & H1 & H2).
  assert (Hz : cross_product d w = (0, 0, 0)).
  { rewrite Ecross. apply point_eq; nra. }
  destruct (@cross_zero_parallel d w d_nonzero Hz) as [l Hl].
  apply off_line. destruct (Hq l Hl) as [H | H]; eexists; exact H.
Qed.

Lemma off_line_last :
  cross_product (vector_bw_obj A B) (vector_bw_obj B q) <> (0, 0, 0).
Proof.
  intros Hc.
  apply (@off_line_parallel b (vector_bw_obj B q) (b - a)); [lra | |].
  - intros l Hl. left. subst B. clear Hc A.
    destruct p as [[p0 p1] p2], d as [[d0 d1] d2], q as [[q0 q1] q2].
    simpl in *. apply point_eq_inv in Hl. destruct Hl as (H0 & H1 & H2).
    apply point_eq; lra.
  - rewrite <- Hc. subst A B.
    destruct p as [[p0 p1] p2], d as [[d0 d1] d2], q as [[q0 q1] q2].
    simpl. apply point_eq; ring.
Qed.

Lemma off_line_middle :
  cross_product (vector_bw_obj A q) (vector_bw_obj q B) <> (0, 0, 0).
Proof.
  intros Hc.
  apply (@off_line_parallel a (vector_bw_obj A q) (a - b)); [lra | |].
  - intros l Hl. left. subst A. clear Hc B.
    destruct p as [[p0 p1] p2], d as [[d0 d1] d2], q as [[q0 q1] q2].
    simpl in *. apply point_eq_inv in Hl. destruct Hl as (H0 & H1 & H2).
    apply point_eq; lra.
  - rewrite <- Hc. subst A B.
    destruct p as [[p0 p1] p2], d as [[d0 d1] d2], q as [[q0 q1] q2].
    simpl. apply point_eq; ring.
Qed.

Lemma off_line_first :
  cross_product (vector_bw_obj q A) (vector_bw_obj A B) <> (0, 0, 0).
Proof.
  intros Hc.
  apply (@off_line_parallel a (vector_bw_obj q A) (a - b)); [lra | |].
  - intros l Hl. right. subst A. clear Hc B.
    destruct p as [[p0 p1] p2], d as [[d0 d1] d2], q as [[q0 q1] q2].
    simpl in *. apply point_eq_inv in Hl. destruct Hl as (H0 & H1 & H2).
    apply point_eq; lra.
  - rewrite <- Hc. subst A B.
    destruct p as [[p0 p1] p2], d as [[d0 d1] d2], q as [[q0 q1] q2].
    simpl. apply point_eq; ring.
Qed.
End OffLine.

Lemma check_if_in_line_unfold (sc : scene) (obj_list : list string) :
  check_if_in_line sc obj_list
  = negb (False_in (map (fun product =>
                           if Reqb (magnitude product) 0 then true else false)
                        (cross_products_of sc obj_list))).
Proof.
  unfold check_if_in_line, cross_products_of, displacements.
  now destruct (False_in _).
Qed.

Lemma check_if_in_line_true (sc : scene) (obj_list : list string) :
  check_if_in_line sc obj_list = true <->
  forall c, In c (cross_products_of sc obj_list) -> magnitude c = 0.
Proof.
  rewrite check_if_in_line_unfold, negb_true_iff, False_in_false. split.
  - intros H c Hc. destruct (Reqb (magnitude c) 0) eqn:E;
      [now apply Reqb_true |].
    assert (F : false = true); [| discriminate F].
    apply H. apply in_map_iff. exists c. split; [| exact Hc].
    now rewrite E.
  - intros H b Hb. apply in_map_iff in Hb. destruct Hb as (c & <- & Hc).
    apply H in Hc. apply Reqb_true in Hc. now rewrite Hc.
Qed.

Lemma check_if_in_line_false (sc : scene) (obj_list : list string) :
  check_if_in_line sc obj_list = false <->
  exists c, In c (cross_products_of sc obj_list) /\ c <> (0, 0, 0).
Proof.
  rewrite check_if_in_line_unfold, negb_false_iff, False_in_true, in_map_iff.
  split.
  - intros (c & Hr & Hc). exists c. split; [exact Hc |].
    intros ->. rewrite (proj2 (magnitude_zero_iff (0, 0, 0)) eq_refl) in Hr.
    now rewrite Reqb_refl in Hr.
  - intros (c & Hc & Hne). exists c. split; [| exact Hc].
    destruct (Reqb (magnitude c) 0) eqn:E; [| reflexivity].
    apply Reqb_true, magnitude_zero_iff in E. contradiction.
Qed.

Lemma cross_products_nth (sc : scene) (obj_list : list string) (i : nat)
    (o1 o2 o3 : string) :
  nth_error obj_list i = Some o1 ->
  nth_error obj_list (S i) = Some o2 ->
  nth_error obj_list (S (S i)) = Some o3 ->
  nth_error (cross_products_of sc obj_list) i
  = Some (cross_product
            (vector_bw_obj (get_position sc o1) (get_position sc o2))
            (vector_bw_obj (get_position sc o2) (get_position sc o3))).
Proof.
  intros H1 H2 H3. unfold cross_products_of, displacements.
  apply adjacent_nth; apply adjacent_nth;
    now apply map_nth_error.
Qed.

Lemma cross_products_In (sc : scene) (obj_list : list string) (c : point) :
  In c (cross_products_of sc obj_list) ->
  exists o1 o2 o3,
    In o1 obj_list /\ In o2 obj_list /\ In o3 obj_list
    /\ c = cross_product
             (vector_bw_obj (get_position sc o1) (get_position sc o2))
             (vector_bw_obj (get_position sc o2) (get_position sc o3)).
Proof.
  intros Hc. apply In_nth_error in Hc. destruct Hc as [i Hi].
  unfold cross_products_of, displacements in Hi.
  apply adjacent_nth_inv in Hi. destruct Hi as (u & v & Hu & Hv & ->).
  apply adjacent_nth_inv in Hu. destruct Hu as (p1 & p2 & H1 & H2 & ->).
  apply adjacent_nth_inv in Hv. destruct Hv as (p2' & p3 & H2' & H3 & ->).
  rewrite H2 in H2'. inversion H2'; subst p2'.
  apply nth_error_In, in_map_iff in H1, H2, H3.
  destruct H1 as (o1 & <- & Ho1), H2 as (o2 & <- & Ho2),
           H3 as (o3 & <- & Ho3).
  exists o1, o2, o3. auto.
Qed.

Lemma check_if_in_line_short (sc : scene) (obj_list : list string) :
  (List.length obj_list < 3)%nat -> check_if_in_line sc obj_list = true.
Proof.
  intros Hlen. apply check_if_in_line_true.
  unfold cross_products_of. rewrite adjacent_short; [intros c [] |].
  unfold displacements. rewrite adjacent_length, length_map. lia.
Qed.

Lemma check_if_in_line_on_line (sc : scene) (obj_list : list string)
    (p d : point) :
  (forall o, In o obj_list -> on_line p d (get_position sc o)) ->
  check_if_in_line sc obj_list = true.
Proof.
  intros Hline. apply check_if_in_line_true. intros c Hc.
  apply cross_products_In in Hc.
  destruct Hc as (o1 & o2 & o3 & H1 & H2 & H3 & ->).
  destruct (Hline _ H1) as [a ->], (Hline _ H2) as [b ->],
           (Hline _ H3) as [c ->].
  rewrite cross_on_line. now apply magnitude_zero_iff.
Qed.

Lemma get_position_move (sc : scene) (obj obj' : string) (q : point) :
  get_position (move sc obj q) obj'
  = if String.eqb obj obj' then q else get_position sc obj'.
Proof. reflexivity. Qed.

Lemma point_eq_dec (a b : point) : {a = b} + {a <> b}.
Proof.
  destruct a as [[a0 a1] a2], b as [[b0 b1] b2].
  destruct (Req_dec_T a0 b0) as [-> | N0];
    [| right; intros H; apply point_eq_inv in H; tauto].
  destruct (Req_dec_T a1 b1) as [-> | N1];
    [| right; intros H; apply point_eq_inv in H; tauto].
  destruct (Req_dec_T a2 b2) as [-> | N2];
    [| right; intros H; apply point_eq_inv in H; tauto].
  now left.
Qed.

(** Two different points of a line have different parameters, and the
    direction of the line is not zero. *)
Lemma line_points_apart (p d : point) (a b : R) :
  line_point p d a <> line_point p d b -> d <> (0, 0, 0) /\ a <> b.
Proof.
  intros H. split.
  - intros ->. apply H. destruct p as [[p0 p1] p2]. simpl.
    apply point_eq; ring.
  - intros ->. now apply H.
Qed.

(** A point taken twice among three hides the third: the cross product
    of the two displacements vanishes. *)
Lemma cross_repeated_first (a q : point) :
  cross_product (vector_bw_obj a a) (vector_bw_obj a q) = (0, 0, 0).
Proof.
  destruct a as [[a0 a1] a2], q as [[q0 q1] q2]. simpl. apply point_eq; ring.
Qed.

Lemma cross_repeated_outer (a q : point) :
  cross_product (vector_bw_obj a q) (vector_bw_obj q a) = (0, 0, 0).
Proof.
  destruct a as [[a0 a1] a2], q as [[q0 q1] q2]. simpl. apply point_eq; ring.
Qed.

Lemma cross_repeated_last (a q : point) :
  cross_product (vector_bw_obj q a) (vector_bw_obj a a) = (0, 0, 0).
Proof.
  destruct a as [[a0 a1] a2], q as [[q0 q1] q2]. simpl. apply point_eq; ring.
Qed.

Lemma companions_In (k i j : nat) :
  In (i, j) (companions k) <->
  ((2 <= k)%nat /\ i = (k - 2)%nat /\ j = (k - 1)%nat)
  \/ ((1 <= k)%nat /\ i = (k - 1)%nat /\ j = (k + 1)%nat)
  \/ (i = (k + 1)%nat /\ j = (k + 2)%nat).
Proof.
  unfold companions. rewrite !in_app_iff. split.
  - intros [H | [H | H]].
    + destruct (2 <=? k)%nat eqn:E; [| destruct H].
      apply Nat.leb_le in E. destruct H as [H | []]. inversion H. auto.
    + destruct (1 <=? k)%nat eqn:E; [| destruct H].
      apply Nat.leb_le in E. destruct H as [H | []]. inversion H. auto.
    + destruct H as [H | []]. inversion H. auto.
  - intros [(H & -> & ->) | [(H & -> & ->) | (-> & ->)]].
    + left. apply Nat.leb_le in H. rewrite H. now left.
    + right. left. apply Nat.leb_le in H. rewrite H. now left.
    + right. right. now left.
Qed.

Lemma cross_products_nth_inv (sc : scene) (obj_list : list string) (i : nat)
    (c : point) :
  nth_error (cross_products_of sc obj_list) i = Some c ->
  exists o1 o2 o3,
    nth_error obj_list i = Some o1
    /\ nth_error obj_list (S i) = Some o2
    /\ nth_error obj_list (S (S i)) = Some o3
    /\ c = cross_product
             (vector_bw_obj (get_position sc o1) (get_position sc o2))
             (vector_bw_obj (get_position sc o2) (get_position sc o3)).
Proof.
  intros Hi. unfold cross_products_of, displacements in Hi.
  apply adjacent_nth_inv in Hi. destruct Hi as (u & v & Hu & Hv & ->).
  apply adjacent_nth_inv in Hu. destruct Hu as (p1 & p2 & H1 & H2 & ->).
  apply adjacent_nth_inv in Hv. destruct Hv as (p2' & p3 & H2' & H3 & ->).
  rewrite H2 in H2'. injection H2' as <-.
  rewrite nth_error_map in H1, H2, H3.
  destruct (nth_error obj_list i) as [o1 |]; [| discriminate H1].
  destruct (nth_error obj_list (S i)) as [o2 |]; [| discriminate H2].
  destruct (nth_error obj_list (S (S i))) as [o3 |]; [| discriminate H3].
  cbn [option_map] in H1, H2, H3.
  injection H1 as <-. injection H2 as <-. injection H3 as <-.
  now exists o1, o2, o3.
Qed.

(** One object of a list on a line is moved off the line.  The bend is
    reported exactly when, among some three consecutive objects that
    include the moved one, the other two are at different places. *)
Lemma check_if_in_line_moved (sc : scene) (obj_list : list string)
    (p d : point) (k : nat) (o : string) (q : point) :
  NoDup obj_list ->
  (forall o', In o' obj_list -> on_line p d (get_position sc o')) ->
  nth_error obj_list k = Some o -> ~ on_line p d q ->
  check_if_in_line (move sc o q) obj_list = false <->
  bend_visible sc obj_list k.
Proof.
  intros Hnd Hline Hk Hoff.
  assert (Hsame : forall i o', nth_error obj_list i = Some o' -> i <> k ->
                    get_position (move sc o q) o' = get_position sc o').
  { intros i o' Hi Hik. rewrite get_position_move.
    destruct (String.eqb_spec o o') as [<- | _]; [| reflexivity].
    exfalso. apply Hik.
    apply (proj1 (NoDup_nth_error obj_list) Hnd); [| congruence].
    apply nth_error_Some. congruence. }
  assert (Hmoved : get_position (move sc o q) o = q)
    by (rewrite get_position_move; now rewrite String.eqb_refl).
  split.
  - intros H. apply check_if_in_line_false in H.
    destruct H as (c & Hc & Hne).
    apply In_nth_error in Hc. destruct Hc as [i Hi].
    apply cross_products_nth_inv in Hi.
    destruct Hi as (o1 & o2 & o3 & E1 & E2 & E3 & ->).
    destruct (Nat.eq_dec i k) as [Ei | Ni];
      [| destruct (Nat.eq_dec (S i) k) as [Ei | Ni'];
         [| destruct (Nat.eq_dec (S (S i)) k) as [Ei | Ni'']]].
    + (* the moved object comes first *)
      subst i. rewrite Hk in E1. inversion E1; subst o1.
      rewrite (Hsame _ _ E2), (Hsame _ _ E3) in * by lia.
      destruct (point_eq_dec (get_position sc o2) (get_position sc o3))
        as [E | N].
      * rewrite E in Hne. now rewrite cross_repeated_last in Hne.
      * exists (k + 1)%nat, (k + 2)%nat, o2, o3.
        split; [apply companions_In; auto |].
        replace (k + 1)%nat with (S k) by lia.
        replace (k + 2)%nat with (S (S k)) by lia. auto.
    + (* the moved object is in the middle *)
      rewrite Ei in E2. rewrite Hk in E2. inversion E2; subst o2.
      rewrite (Hsame _ _ E1), (Hsame _ _ E3), Hmoved in * by lia.
      destruct (point_eq_dec (get_position sc o1) (get_position sc o3))
        as [E | N].
      * rewrite E in Hne. now rewrite cross_repeated_outer in Hne.
      * exists (k - 1)%nat, (k + 1)%nat, o1, o3.
        split; [apply companions_In; right; left; lia |].
        replace (k - 1)%nat with i by lia.
        replace (k + 1)%nat with (S (S i)) by lia. auto.
    + (* the moved object comes last *)
      rewrite Ei in E3. rewrite Hk in E3. inversion E3; subst o3.
      rewrite (Hsame _ _ E1), (Hsame _ _ E2), Hmoved in * by lia.
      destruct (point_eq_dec (get_position sc o1) (get_position sc o2))
        as [E | N].
      * rewrite E in Hne. now rewrite cross_repeated_first in Hne.
      * exists (k - 2)%nat, (k - 1)%nat, o1, o2.
        split; [apply companions_In; left; lia |].
        replace (k - 2)%nat with i by lia.
        replace (k - 1)%nat with (S i) by lia. auto.
    + (* the moved object is not among the three *)
      exfalso. apply Hne.
      rewrite (Hsame _ _ E1), (Hsame _ _ E2), (Hsame _ _ E3) by lia.
      destruct (Hline _ (nth_error_In _ _ E1)) as [a ->].
      destruct (Hline _ (nth_error_In _ _ E2)) as [b ->].
      destruct (Hline _ (nth_error_In _ _ E3)) as [c ->].
      apply cross_on_line.
  - intros (i & j & oi & oj & Hin & Hi & Hj & Hne).
    apply companions_In in Hin.
    destruct (Hline _ (nth_error_In _ _ Hi)) as [a Ha].
    destruct (Hline _ (nth_error_In _ _ Hj)) as [b Hb].
    rewrite Ha, Hb in Hne.
    destruct (@line_points_apart p d a b Hne) as [Hd Hab].
    apply check_if_in_line_false.
    destruct Hin as [(H2 & -> & ->) | [(H1 & -> & ->) | (-> & ->)]].
    + eexists. split.
      * eapply nth_error_In.
        apply (@cross_products_nth _ _ (k - 2) oi oj o); [exact Hi | |].
        -- replace (S (k - 2)) with (k - 1)%nat by lia. exact Hj.
        -- replace (S (S (k - 2))) with k by lia. exact Hk.
      * rewrite (Hsame _ _ Hi), (Hsame _ _ Hj), Hmoved, Ha, Hb by lia.
        now apply off_line_last.
    + eexists. split.
      * eapply nth_error_In.
        apply (@cross_products_nth _ _ (k - 1) oi o oj); [exact Hi | |].
        -- replace (S (k - 1)) with k by lia. exact Hk.
        -- replace (S (S (k - 1))) with (k + 1)%nat by lia. exact Hj.
      * rewrite (Hsame _ _ Hi), (Hsame _ _ Hj), Hmoved, Ha, Hb by lia.
        now apply off_line_middle.
    + eexists. split.
      * eapply nth_error_In.
        apply (@cross_products_nth _ _ k o oi oj); [exact Hk | |].
        -- replace (S k) with (k + 1)%nat by lia. exact Hi.
        -- replace (S (S k)) with (k + 2)%nat by lia. exact Hj.
      * rewrite (Hsame _ _ Hi), (Hsame _ _ Hj), Hmoved, Ha, Hb by lia.
        now apply off_line_first.
Qed.

(** C8 (as amended).  [check_if_in_line] returns [True] on fewer than
    three objects.  On coordinates of the grid, where binary64 computes
    the displacements and cross products exactly: it returns [True] when
    all objects lie on one line; and when one object of such a list is
    moved to a point off the line, it returns [False] exactly when,
    among some three consecutive objects that include the moved one, the
    other two are at different places.  The comparison with zero is
    exact. *)
Theorem check_if_in_line_collinear :
  (forall (sc : scene) (obj_list : list string),
      (List.length obj_list < 3)%nat -> check_if_in_line sc obj_list = true)
  /\ (forall (sc : scene) (obj_list : list string) (e : nat) (p d : point),
         (forall o, In o obj_list -> on_grid e (get_position sc o)) ->
         (forall o, In o obj_list -> on_line p d (get_position sc o)) ->
         check_if_in_line sc obj_list = true)
  /\ (forall (sc : scene) (obj_list : list string) (e : nat) (p d : point)
             (k : nat) (o : string) (q : point),
         (forall o', In o' obj_list -> on_grid e (get_position sc o')) ->
         on_grid e q -> NoDup obj_list ->
         (forall o', In o' obj_list -> on_line p d (get_position sc o')) ->
         nth_error obj_list k = Some o -> ~ on_line p d q ->
         (check_if_in_line (move sc o q) obj_list = false <->
          bend_visible sc obj_list k)).
Proof.
  split; [exact check_if_in_line_short |]. split.
  - intros sc obj_list e p d _. apply check_if_in_line_on_line.
  - intros sc obj_list e p d k o q _ _. apply check_if_in_line_moved.
Qed.

Lemma x_axis_on_line (x : R) : on_line (0, 0, 0) (1, 0, 0) (x, 0, 0).
Proof. exists x. simpl. apply point_eq; lra. Qed.

Lemma off_x_axis (x y z : R) :
  y <> 0 -> ~ on_line (0, 0, 0) (1, 0, 0) (x, y, z).
Proof.
  intros Hy [t Ht]. simpl in Ht. apply point_eq_inv in Ht. lra.
Qed.

Lemma x_direction_nonzero : (1, 0, 0) <> (0, 0, 0).
Proof. intros H. apply point_eq_inv in H. lra. Qed.

Lemma row_on_x_axis (o : string) :
  In o three_objects ->
  on_line (0, 0, 0) (1, 0, 0) (get_position row_scene o).
Proof.
  intros [<- | [<- | [<- | []]]]; apply x_axis_on_line.
Qed.

(** Points with small integer coordinates are on the grid. *)
Lemma integers_on_grid (a b c : Z) :
  (Z.abs a <= 2 ^ 25)%Z -> (Z.abs b <= 2 ^ 25)%Z -> (Z.abs c <= 2 ^ 25)%Z ->
  on_grid 0 (IZR a, IZR b, IZR c).
Proof.
  intros Ha Hb Hc. split; [lia |]. exists a, b, c.
  split; [| now repeat split].
  apply point_eq; simpl; field.
Qed.

Lemma row_on_grid (o : string) :
  In o three_objects -> on_grid 0 (get_position row_scene o).
Proof.
  intros [<- | [<- | [<- | []]]].
  - apply (integers_on_grid 1 0 0); lia.
  - apply (integers_on_grid 2 0 0); lia.
  - apply (integers_on_grid 3 0 0); lia.
Qed.

Lemma three_objects_distinct : NoDup three_objects.
Proof. repeat constructor; simpl; intuition discriminate. Qed.

Lemma row_bend_visible : bend_visible row_scene three_objects 1.
Proof.
  exists 0%nat, 2%nat, "pSphere1"%string, "pSolid2"%string.
  split; [apply companions_In; right; left; repeat split; lia |].
  split; [reflexivity |]. split; [reflexivity |].
  intros H. apply point_eq_inv in H. lra.
Qed.

Lemma check_if_in_line_collinear_witness :
  (forall o', In o' three_objects -> on_grid 0 (get_position row_scene o'))
  /\ on_grid 0 (2, 1, 0)
  /\ NoDup three_objects
  /\ (forall o', In o' three_objects ->
                 on_line (0, 0, 0) (1, 0, 0) (get_position row_scene o'))
  /\ nth_error three_objects 1 = Some "pSolid1"%string
  /\ ~ on_line (0, 0, 0) (1, 0, 0) (2, 1, 0)
  /\ bend_visible row_scene three_objects 1
  /\ check_if_in_line (move row_scene "pSolid1" (2, 1, 0)) three_objects
     = false.
Proof.
  assert (Hoff : ~ on_line (0, 0, 0) (1, 0, 0) (2, 1, 0))
    by (apply off_x_axis; lra).
  assert (Hq : on_grid 0 (2, 1, 0)) by (apply (integers_on_grid 2 1 0); lia).
  split; [exact row_on_grid |]. split; [exact Hq |].
  split; [exact three_objects_distinct |]. split; [exact row_on_x_axis |].
  split; [reflexivity |]. split; [exact Hoff |].
  split; [exact row_bend_visible |].
  exact (proj2 (proj2 (proj2 check_if_in_line_collinear) row_scene
                  three_objects 0%nat (0, 0, 0) (1, 0, 0) 1%nat
                  "pSolid1"%string (2, 1, 0) row_on_grid Hq
                  three_objects_distinct row_on_x_axis eq_refl Hoff)
               row_bend_visible).
Defined.

Lemma coincident_on_x_axis (o : string) :
  In o three_objects ->
  on_line (0, 0, 0) (1, 0, 0) (get_position coincident_scene o).
Proof.
  intros [<- | [<- | [<- | []]]]; apply x_axis_on_line.
Qed.

Lemma coincident_moved_in_line :
  check_if_in_line (move coincident_scene "pSphere1" (0, 1, 0))
                   three_objects = true.
Proof.
  apply check_if_in_line_true. intros c Hc.
  cbn in Hc. destruct Hc as [<- | []].
  apply magnitude_zero_iff. apply point_eq; ring.
Qed.

(** With two objects at the same place, the first object can leave the
    line of the three and [check_if_in_line] still returns [True]. *)
Lemma coincident_perturbation_undetected :
  ~ (forall (sc : scene) (obj_list : list string) (p d : point)
            (k : nat) (o : string) (q : point),
        d <> (0, 0, 0) -> (3 <= List.length obj_list)%nat ->
        NoDup obj_list ->
        (forall o', In o' obj_list -> on_line p d (get_position sc o')) ->
        check_if_in_line sc obj_list = true ->
        nth_error obj_list k = Some o -> ~ on_line p d q ->
        check_if_in_line (move sc o q) obj_list = false).
Proof.
  intros H.
  specialize (H coincident_scene three_objects (0, 0, 0) (1, 0, 0)
                0%nat "pSphere1"%string (0, 1, 0) x_direction_nonzero).
  rewrite coincident_moved_in_line in H. discriminate H.
  - simpl. lia.
  - repeat constructor; simpl; intuition discriminate.
  - exact coincident_on_x_axis.
  - apply (check_if_in_line_on_line _ _ coincident_on_x_axis).
  - reflexivity.
  - apply off_x_axis. lra.
Qed.

(** Far from the origin binary64 rounds the displacements: three objects
    on one line are reported as not in line. *)
Lemma far_on_line (o : string) :
  In o three_objects ->
  on_line (0, 0, 0) (1, 3, 0) (get_position far_scene o).
Proof.
  intros [<- | [<- | [<- | []]]].
  - exists (-1). apply point_eq; lra.
  - exists 9007199254740992. apply point_eq; lra.
  - exists 18014398509481984. apply point_eq; lra.
Qed.

Lemma far_rejected :
  Binary64.check_if_in_line Binary64.far_scene three_objects = Ok false.
Proof. vm_compute. reflexivity. Qed.

(** A bend of [2 ^ - 600] is lost in binary64 when the cross product is
    squared. *)
Lemma bent_not_in_line : check_if_in_line bent_scene three_objects = false.
Proof.
  assert (Hpos : 0 < / 2 ^ 600)
    by (apply Rinv_0_lt_compat, pow_lt; lra).
  apply check_if_in_line_false. eexists. split; [now left |].
  cbn -[pow]. intros H. apply point_eq_inv in H.
  destruct H as (_ & _ & H). revert H Hpos.
  generalize (/ 2 ^ 600). intros x H Hpos. lra.
Qed.

Lemma bent_accepted :
  Binary64.check_if_in_line Binary64.bent_scene three_objects = Ok true.
Proof. vm_compute. reflexivity. Qed.

(** C8 as stated does not hold.  With two objects at the same place,
    the first object can leave the line of the three and
    [check_if_in_line] still returns [True].  In binary64, three objects
    on one line far from the origin give [False], and a bend of
    [2 ^ - 600] gives [True]. *)
Lemma collinearity_misjudged :
  ~ (forall (sc : scene) (obj_list : list string) (p d : point)
            (k : nat) (o : string) (q : point),
        d <> (0, 0, 0) -> (3 <= List.length obj_list)%nat ->
        NoDup obj_list ->
        (forall o', In o' obj_list -> on_line p d (get_position sc o')) ->
        check_if_in_line sc obj_list = true ->
        nth_error obj_list k = Some o -> ~ on_line p d q ->
        check_if_in_line (move sc o q) obj_list = false)
  /\ ((forall o, In o three_objects ->
                 on_line (0, 0, 0) (1, 3, 0) (get_position far_scene o))
      /\ Binary64.check_if_in_line Binary64.far_scene three_objects
         = Ok false)
  /\ (check_if_in_line bent_scene three_objects = false
      /\ Binary64.check_if_in_line Binary64.bent_scene three_objects
         = Ok true).
Proof.
  split; [exact coincident_perturbation_undetected |].
  split; [split; [exact far_on_line | exact far_rejected] |].
  split; [exact bent_not_in_line | exact bent_accepted].
Qed.

(** ** Checking again after the correction *)









Section Progression.
Variables (A : Type) (key : A -> R) (s : R).

Let keyed_by_index := keyed_by_index key s.

Lemma keyed_by_index_tail (k : nat) (a : A) (l : list A) :
  keyed_by_index k (a :: l) -> keyed_by_index (S k) l.
Proof.
  intros H i b Hb. rewrite (H (S i) b Hb). do 2 f_equal. lia.
Qed.

Lemma keyed_by_index_In (k : nat) (l : list A) (b : A) :
  keyed_by_index k l -> In b l ->
  exists i, key b = s * INR (k + i + 1).
Proof.
  intros H Hb. apply In_nth_error in Hb. destruct Hb as [i Hi].
  exists i. now apply H.
Qed.

Lemma INR_index_lt (k i : nat) : INR (k + 0 + 1) < INR (S k + i + 1).
Proof. apply lt_INR. lia. Qed.

Lemma keyed_strictly_sorted (k : nat) (l : list A) :
  0 < s -> keyed_by_index k l ->
  StronglySorted (fun a b => Rltb (key a) (key b) = true) l.
Proof.
  intros Hs. revert k. induction l as [| a l IH]; intros k H; constructor.
  - apply (IH (S k)). now apply keyed_by_index_tail in H.
  - rewrite Forall_forall. intros b Hb. apply Rltb_true.
    destruct (@keyed_by_index_In (S k) l b (keyed_by_index_tail H) Hb)
      as [i Hi].
    rewrite Hi, (H 0%nat a eq_refl).
    apply Rmult_lt_compat_l; [exact Hs | apply INR_index_lt].
Qed.

Lemma keyed_sorted (k : nat) (l : list A) :
  0 <= s -> keyed_by_index k l ->
  StronglySorted (fun a b => key a <= key b) l.
Proof.
  intros Hs. revert k. induction l as [| a l IH]; intros k H; constructor.
  - apply (IH (S k)). now apply keyed_by_index_tail in H.
  - rewrite Forall_forall. intros b Hb.
    destruct (@keyed_by_index_In (S k) l b (keyed_by_index_tail H) Hb)
      as [i Hi].
    rewrite Hi, (H 0%nat a eq_refl).
    apply Rmult_le_compat_l; [exact Hs |]. left. apply INR_index_lt.
Qed.

(** All consecutive gaps are [s]. *)
Lemma keyed_gaps (k : nat) (l : list A) (difference : R) :
  difference = s -> keyed_by_index k l ->
  False_in (adjacent (fun a b => if Reqb (b - a) difference then true
                                 else false) (map key l)) = false.
Proof.
  intros ->. revert k. induction l as [| a [| b l] IH]; intros k H;
    try reflexivity.
  assert (Eg : key b - key a = s).
  { rewrite (H 0%nat a eq_refl), (H 1%nat b eq_refl).
    replace (k + 1 + 1)%nat with (S (k + 0 + 1)) by lia.
    rewrite S_INR. ring. }
  change (False_in
            ((if Reqb (key b - key a) s then true else false)
               :: adjacent (fun a b => if Reqb (b - a) s then true else false)
                           (map key (b :: l))) = false).
  rewrite Eg, Reqb_refl.
  exact (IH (S k) (keyed_by_index_tail H)).
Qed.
End Progression.

Lemma insert_map {A K : Type} (ltb : K -> K -> bool) (key : A -> K) (x : A)
    (l : list A) :
  insert ltb (fun d => d) (key x) (map key l) = map key (insert ltb key x l).
Proof.
  induction l as [| y l IH]; [reflexivity |]. simpl.
  destruct (ltb (key y) (key x)); [| reflexivity]. simpl. now rewrite IH.
Qed.

Lemma sort_by_map {A K : Type} (ltb : K -> K -> bool) (key : A -> K)
    (l : list A) :
  sort_by ltb (fun d => d) (map key l) = map key (sort_by ltb key l).
Proof.
  induction l as [| x l IH]; [reflexivity |]. simpl.
  now rewrite IH, insert_map.
Qed.

Lemma Rle_Rltb_false (a b : R) : a <= b -> Rltb b a = false.
Proof. intros H. now apply Rltb_false. Qed.

Lemma sort_by_R_unique {A : Type} (key : A -> R) (l c : list A) :
  StronglySorted (fun a b => Rltb (key a) (key b) = true) c ->
  Permutation l c -> sort_by Rltb key l = c.
Proof.
  apply (@sort_by_unique A R Rltb key Rle).
  - intros a b H. now apply Rltb_false.
  - intros a b H. apply Rltb_true in H. lra.
  - apply Rle_Rltb_false.
  - intros a b c'; lra.
Qed.

Lemma sort_by_R_sorted_id {A : Type} (key : A -> R) (l : list A) :
  StronglySorted (fun a b => key a <= key b) l -> sort_by Rltb key l = l.
Proof. apply (@sort_by_sorted_id A R Rltb key Rle Rle_Rltb_false). Qed.

(** Equal spacing of objects whose distances are [s, 2 s, 3 s, ...]. *)
Lemma if_equally_spaced_keyed (sc : scene) (obj_list : list string) (s : R) :
  (2 <= List.length obj_list)%nat -> 0 <= s ->
  keyed_by_index (fun obj => magnitude (get_position sc obj)) s 0 obj_list ->
  if_equally_spaced sc obj_list = Ok true.
Proof.
  intros Hlen Hs Hkey. unfold if_equally_spaced.
  rewrite sort_by_map.
  rewrite (sort_by_R_sorted_id _ (keyed_sorted Hs Hkey)).
  destruct obj_list as [| a [| b l]]; try (simpl in Hlen; lia).
  cbn [map list_get nth_error bind].
  change (magnitude (get_position sc a)
            :: magnitude (get_position sc b)
            :: map (fun obj => magnitude (get_position sc obj)) l)
    with (map (fun obj => magnitude (get_position sc obj)) (a :: b :: l)).
  rewrite (@keyed_gaps _ _ s 0 (a :: b :: l)); [reflexivity | | exact Hkey].
  rewrite (Hkey 0%nat a eq_refl), (Hkey 1%nat b eq_refl). simpl. ring.
Qed.

Lemma filter_none {A : Type} (f : A -> bool) (l : list A) :
  (forall a, In a l -> f a = false) -> filter f l = [].
Proof.
  induction l as [| x l IH]; intros H; [reflexivity |]. simpl.
  rewrite (H x (or_introl eq_refl)). apply IH. intros a Ha. apply H. now right.
Qed.




(** The order checks on a list made of spheres followed by solids whose
    distances grow with the index. *)
Section SpheresThenSolids.
Variables (sc : scene) (s : R) (spheres solids : list string).
Hypothesis s_pos : 0 < s.
Hypothesis spheres_marked :
  forall o, In o spheres -> contains "Sphere" o = true.
Hypothesis spheres_not_solids :
  forall o, In o spheres -> contains "pSolid" o = false.
Hypothesis solids_unmarked :
  forall o, In o solids -> contains "Sphere" o = false.
Hypothesis solids_by_faces : StronglySorted (le_faces sc) solids.
Hypothesis distances :
  keyed_by_index (distance_from_center sc) s 0 (spheres ++ solids).



End SpheresThenSolids.






(** The same run in binary64: the spacing is 4, the new positions 4, 8
    and 12 are exact, and the checks that compute with coordinates
    return [True]. *)
Lemma disorder_corrected_binary64 :
  exists sc',
    Binary64.fix_arrangement Binary64.disorder_scene three_objects = Ok sc'
    /\ Binary64.rechecked_list sc' three_objects
       = Binary64.new_order_for_fixed_arrangement Binary64.disorder_scene
                                                  three_objects
    /\ Binary64.check_if_in_line sc' ["pSphere1"; "pSolid2"; "pSolid1"]%string
       = Ok true
    /\ Binary64.if_equally_spaced sc' ["pSphere1"; "pSolid2"; "pSolid1"]%string
       = Ok true.
Proof.
  eexists. split; [vm_compute; reflexivity |].
  repeat split; vm_compute; reflexivity.
Qed.











(** ** The filter loop of the entry point *)

Lemma list_remove_length (x : string) (l : list string) :
  (List.length (list_remove x l) <= List.length l)%nat.
Proof.
  induction l as [| y l IH]; simpl; [lia |].
  destruct (String.eqb x y); simpl; lia.
Qed.

(** The loop has ended when the fuel given by [remove_shapes] is used
    up: more fuel does not change the result. *)
Lemma remove_shapes_loop_fuel (fuel extra i : nat) (obj_list : list string) :
  (List.length obj_list <= i + fuel)%nat ->
  remove_shapes_loop (fuel + extra) i obj_list
  = remove_shapes_loop fuel i obj_list.
Proof.
  revert i obj_list. induction fuel as [| fuel IH]; intros i l Hlen.
  - assert (E : nth_error l i = None) by (apply nth_error_None; lia).
    destruct extra; simpl; [reflexivity | now rewrite E].
  - simpl. destruct (nth_error l i) as [x |]; [| reflexivity].
    destruct (contains "Shape" x); apply IH; [| lia].
    pose proof (list_remove_length x l). lia.
Qed.

Lemma remove_shapes_enough_fuel (extra : nat) (obj_list : list string) :
  remove_shapes_loop (List.length obj_list + extra) 0 obj_list
  = remove_shapes obj_list.
Proof. apply remove_shapes_loop_fuel. lia. Qed.

(** Removing while iterating skips the element after a removed one. *)
Example remove_shapes_skips :
  remove_shapes ["pSphereShape1"; "pSolidShape1"; "pSolid1"]%string
  = ["pSolidShape1"; "pSolid1"]%string.
Proof. reflexivity. Qed.

Example remove_shapes_alternating :
  remove_shapes ["pSphere1"; "pSphereShape1"; "pSolid1"; "pSolidShape1"]%string
  = ["pSphere1"; "pSolid1"]%string.
Proof. reflexivity. Qed.

(** ** Running the correction twice when the markers agree *)

Lemma insert_ext {A K : Type} (ltb : K -> K -> bool) (key key' : A -> K)
    (x : A) (l : list A) :
  (forall a, key a = key' a) -> insert ltb key x l = insert ltb key' x l.
Proof.
  intros H. induction l as [| y l IH]; [reflexivity |]. simpl.
  now rewrite !H, IH.
Qed.

Lemma sort_by_ext {A K : Type} (ltb : K -> K -> bool) (key key' : A -> K)
    (l : list A) :
  (forall a, key a = key' a) -> sort_by ltb key l = sort_by ltb key' l.
Proof.
  intros H. induction l as [| x l IH]; [reflexivity |]. simpl.
  now rewrite IH, (insert_ext ltb key key' _ _ H).
Qed.

Lemma distance_from_center_nonneg (sc : scene) (obj : string) :
  0 <= distance_from_center sc obj.
Proof. rewrite distance_from_center_magnitude. apply magnitude_nonneg. Qed.

Lemma keyed_by_index_app_l {A : Type} (key : A -> R) (s : R)
    (l1 l2 : list A) :
  keyed_by_index key s 0 (l1 ++ l2) -> keyed_by_index key s 0 l1.
Proof.
  intros H i a Hi. apply H. rewrite nth_error_app1; [exact Hi |].
  apply nth_error_Some. congruence.
Qed.

Lemma constant_keys_sorted {A : Type} (key : A -> R) (c : R) (l : list A) :
  (forall a, In a l -> key a = c) ->
  StronglySorted (fun a b => key a <= key b) l.
Proof.
  induction l as [| x l IH]; intros H; constructor.
  - apply IH. intros a Ha. apply H. now right.
  - rewrite Forall_forall. intros y Hy.
    rewrite (H x (or_introl eq_refl)), (H y (or_intror Hy)). lra.
Qed.

Lemma list_last_nth {A : Type} (l : list A) (m : A) :
  list_last l = Ok m -> nth_error l (List.length l - 1) = Some m.
Proof.
  induction l as [| x [| y l] IH]; intros H.
  - discriminate H.
  - inversion H. reflexivity.
  - change (list_last (x :: y :: l)) with (list_last (y :: l)) in H.
    specialize (IH H). simpl in *. now rewrite Nat.sub_0_r in IH.
Qed.

(** In exact arithmetic, on names on which the two sphere markers
    agree, a second run of [fix_arrangement] finds the same order and
    the same furthest distance, and leaves every object where the first
    run put it.  The furthest distance is kept because [D / n * n] is
    [D] over the reals; in binary64 it need not be ([nine_tenths_run]
    below). *)
Lemma fix_arrangement_idempotent (sc : scene) (obj_list : list string) :
  NoDup obj_list -> (0 < no_of_spheres obj_list)%nat ->
  markers_agree obj_list ->
  exists sc1 sc2,
    fix_arrangement sc obj_list = Ok sc1
    /\ fix_arrangement sc1 obj_list = Ok sc2
    /\ new_order_for_fixed_arrangement sc1 obj_list
       = new_order_for_fixed_arrangement sc obj_list
    /\ distance_for_furthestsphere sc1 obj_list
       = distance_for_furthestsphere sc obj_list
    /\ (forall obj, translate sc2 obj = translate sc1 obj)
    /\ poly_faces sc2 = poly_faces sc1.
Proof.
  intros Hnd Hn Hag.
  destruct (fix_arrangement_positions sc Hnd Hn)
    as (D & sc1 & HD & Hfix1 & Hf1 & Hout1 & Hp1).
  destruct (furthest_sphere_exists sc obj_list Hn)
    as (m & Hlast & Hm & Hsp & HD' & Hmax).
  rewrite HD in HD'. inversion HD' as [HDm]. clear HD'.
  set (n := no_of_spheres obj_list) in *.
  set (s := D / INR n) in *.
  assert (Hn0 : 0 < INR n) by now apply (lt_INR 0).
  assert (HD0 : 0 <= D) by (rewrite HDm; apply distance_from_center_nonneg).
  assert (Hs0 : 0 <= s).
  { unfold s. apply Rmult_le_pos; [exact HD0 |].
    left. now apply Rinv_0_lt_compat. }
  assert (Hkey1 : keyed_by_index (distance_from_center sc1) s 0
                    (new_order_for_fixed_arrangement sc obj_list)).
  { intros i obj Hi.
    apply distance_from_center_x_axis with (1 := Hp1 i obj Hi).
    apply Rmult_le_pos; [exact Hs0 | apply pos_INR]. }
  set (F := filter (contains "pSphere") obj_list) in *.
  set (S0 := sort_by Rltb (distance_from_center sc) F) in *.
  assert (HS : sort_by Rltb (distance_from_center sc1) F = S0).
  { rewrite (new_order_agree sc Hag) in Hkey1. fold F S0 in Hkey1.
    apply keyed_by_index_app_l in Hkey1.
    destruct (Rle_lt_or_eq_dec 0 s Hs0) as [Hpos | Hzero].
    - apply sort_by_R_unique; [exact (keyed_strictly_sorted Hpos Hkey1) |].
      symmetry. apply sort_by_perm.
    - assert (HDz : D = 0).
      { unfold s in Hzero. symmetry in Hzero.
        apply Rmult_integral in Hzero. destruct Hzero as [H | H];
          [exact H |].
        pose proof (Rinv_0_lt_compat _ Hn0). lra. }
      assert (E0 : S0 = F).
      { apply sort_by_R_sorted_id. apply constant_keys_sorted with (c := 0).
        intros a Ha. apply filter_In in Ha. destruct Ha as [Ha Hc].
        pose proof (Hmax a Ha Hc) as Hle. rewrite <- HDm in Hle.
        pose proof (distance_from_center_nonneg sc a). lra. }
      rewrite E0. apply sort_by_R_sorted_id.
      apply constant_keys_sorted with (c := 0).
      intros a Ha. rewrite <- E0 in Ha.
      destruct (keyed_by_index_In a Hkey1 Ha) as [i Hi].
      rewrite Hi, <- Hzero. ring. }
  assert (Horder : new_order_for_fixed_arrangement sc1 obj_list
                   = new_order_for_fixed_arrangement sc obj_list).
  { rewrite !(new_order_agree _ Hag). fold F. rewrite HS. fold S0. f_equal.
    apply sort_by_ext. intros a. unfold get_faces. now rewrite Hf1. }
  assert (HD1 : distance_for_furthestsphere sc1 obj_list = Ok D).
  { unfold distance_for_furthestsphere. fold F. rewrite HS.
    fold S0 in Hlast. rewrite Hlast. cbn [bind]. f_equal.
    apply list_last_nth in Hlast.
    assert (Hlen : List.length S0 = n)
      by (unfold S0; rewrite sort_by_length; reflexivity).
    rewrite Hlen in Hlast.
    rewrite (Hkey1 (n - 1)%nat m).
    - replace (0 + (n - 1) + 1)%nat with n by lia.
      unfold s. field. lra.
    - rewrite (new_order_agree sc Hag). fold F S0.
      rewrite nth_error_app1; [exact Hlast | lia]. }
  destruct (fix_arrangement_positions sc1 Hnd Hn)
    as (D1 & sc2 & HD1' & Hfix2 & Hf2 & Hout2 & Hp2).
  rewrite HD1 in HD1'. inversion HD1'; subst D1.
  rewrite Horder in Hp2.
  exists sc1, sc2.
  split; [exact Hfix1 |]. split; [exact Hfix2 |]. split; [exact Horder |].
  split; [now rewrite HD1, HD |]. split; [| exact Hf2].
  intros obj. destruct (in_dec string_dec obj obj_list) as [Hin | Hnin].
  - assert (Hin' : In obj (new_order_for_fixed_arrangement sc obj_list)).
    { eapply Permutation_in; [symmetry; apply new_order_perm | exact Hin]. }
    apply In_nth_error in Hin'. destruct Hin' as [i Hi].
    now rewrite (Hp2 i obj Hi), (Hp1 i obj Hi).
  - now apply Hout2.
Qed.

(** ** The furthest sphere after the correction, by rank *)

(** When the two sphere markers agree on every name, the furthest
    sphere is the last of the spheres in the canonical order, of rank
    [n], and the correction puts it at [s * n] on the x-axis. *)
Lemma furthest_sphere_rank (sc : scene) (obj_list : list string) :
  NoDup obj_list -> (0 < no_of_spheres obj_list)%nat ->
  markers_agree obj_list ->
  exists D sc' m,
    distance_for_furthestsphere sc obj_list = Ok D
    /\ fix_arrangement sc obj_list = Ok sc'
    /\ furthest_sphere sc obj_list = Ok m
    /\ new_order_for_fixed_arrangement sc obj_list
       = canonical_order sc obj_list
    /\ nth_error (canonical_order sc obj_list) (no_of_spheres obj_list - 1)
       = Some m
    /\ translate sc' m
       = (D / INR (no_of_spheres obj_list) * INR (no_of_spheres obj_list),
          0, 0).
Proof.
  intros Hnd Hn Hag.
  destruct (fix_arrangement_positions sc Hnd Hn)
    as (D & sc' & HD & Hfix & _ & _ & Hp).
  destruct (furthest_sphere_exists sc obj_list Hn)
    as (m & Hlast & _ & _ & _ & _).
  assert (Hord : new_order_for_fixed_arrangement sc obj_list
                 = canonical_order sc obj_list)
    by exact (new_order_agree sc Hag).
  assert (Hnth : nth_error (canonical_order sc obj_list)
                           (no_of_spheres obj_list - 1) = Some m).
  { unfold canonical_order. apply list_last_nth in Hlast.
    rewrite sort_by_length in Hlast. fold (no_of_spheres obj_list) in Hlast.
    rewrite nth_error_app1; [exact Hlast |].
    rewrite sort_by_length. fold (no_of_spheres obj_list). lia. }
  exists D, sc', m.
  split; [exact HD |]. split; [exact Hfix |]. split; [exact Hlast |].
  split; [exact Hord |]. split; [exact Hnth |].
  rewrite <- Hord in Hnth. rewrite (Hp _ _ Hnth).
  now replace (no_of_spheres obj_list - 1 + 1)%nat
    with (no_of_spheres obj_list) by lia.
Qed.

(** On the polygon sphere and the NURBS sphere, the canonical
    arrangement has the polygon sphere at [(2, 0, 0)], whichever of the
    two markers is taken to define a sphere: as the only sphere, of rank
    1 with [s = 2], or as the second of two spheres, with [s = 1]. *)
Lemma mixed_canonical_furthest (is_sphere : string -> bool) (sc'' : scene) :
  is_sphere = contains "pSphere" \/ is_sphere = contains "Sphere" ->
  placed_canonically is_sphere mixed_scene mixed_objects sc'' ->
  translate sc'' "pSphere1" = (2, 0, 0).
Proof.
  intros [-> | ->]
         (spheres & solids & D & HP & Hsort & _ & _ & (m & Hm & HD) & Hmax
          & Hpos).
  - replace (filter (contains "pSphere") mixed_objects)
      with ["pSphere1"%string] in HP by reflexivity.
    symmetry in HP. apply Permutation_length_1_inv in HP. subst spheres.
    destruct Hm as [<- | []]. rewrite mixed_distance_pSphere1 in HD. subst D.
    rewrite (Hpos 0%nat _ eq_refl). cbn. apply point_eq; lra.
  - replace (filter (contains "Sphere") mixed_objects)
      with ["pSphere1"; "nurbsSphere1"]%string in HP by reflexivity.
    assert (HD2 : D = 2).
    { assert (H2 : 2 <= D).
      { rewrite <- mixed_distance_pSphere1. apply Hmax.
        eapply Permutation_in; [symmetry; exact HP | now left]. }
      apply (Permutation_in _ HP) in Hm.
      destruct Hm as [<- | [<- | []]].
      - rewrite HD. apply mixed_distance_pSphere1.
      - rewrite mixed_distance_nurbsSphere1 in HD. lra. }
    symmetry in HP. apply Permutation_length_2_inv in HP.
    destruct HP as [-> | ->].
    + apply StronglySorted_inv in Hsort. destruct Hsort as [_ Hall].
      rewrite Forall_forall in Hall.
      specialize (Hall "nurbsSphere1"%string (or_introl eq_refl)).
      unfold le_distance in Hall.
      rewrite mixed_distance_pSphere1, mixed_distance_nurbsSphere1 in Hall.
      lra.
    + rewrite (Hpos 1%nat _ eq_refl), HD2. cbn. apply point_eq; lra.
Qed.

Lemma three_spheres_NoDup : NoDup three_spheres.
Proof. repeat constructor; simpl; intuition discriminate. Qed.

Lemma three_spheres_agree : markers_agree three_spheres.
Proof. intros o [<- | [<- | [<- | []]]]; reflexivity. Qed.

(** Three spheres, the furthest at distance 0.9, in binary64: the
    spacing is [0.9 / 3], the furthest sphere has rank 3, and
    [0.9 / 3 * 3] is the number just below 0.9. *)
Lemma nine_tenths_run :
  exists sc' D',
    Binary64.fix_arrangement Binary64.nine_tenths_scene three_spheres = Ok sc'
    /\ Binary64.distance_for_furthestsphere Binary64.nine_tenths_scene
                                            three_spheres
       = Ok Binary64.nine_tenths
    /\ Binary64.furthest_sphere Binary64.nine_tenths_scene three_spheres
       = Ok "pSphere3"%string
    /\ Binary64.new_order_for_fixed_arrangement Binary64.nine_tenths_scene
                                                three_spheres
       = Ok three_spheres
    /\ Binary64.translate sc' "pSphere3"
       = (PrimFloat.mul
            (PrimFloat.div Binary64.nine_tenths (Binary64.of_int 3))
            (Binary64.of_int 3),
          PrimFloat.zero, PrimFloat.zero)
    /\ Binary64.distance_from_center sc' "pSphere3" = Ok D'
    /\ PrimFloat.ltb D' Binary64.nine_tenths = true.
Proof.
  eexists. eexists.
  split; [vm_compute; reflexivity |].
  repeat split; vm_compute; reflexivity.
Qed.

(** C5. When the two sphere markers agree on every name, the furthest
    sphere has rank [n] in the canonical order, and [fix_arrangement]
    puts it at [s * n] on the x-axis.  On a polygon sphere and a NURBS
    sphere it does not: the canonical arrangement has the polygon
    sphere, the furthest sphere, at [(2, 0, 0)], and [fix_arrangement]
    puts it at [(4, 0, 0)].  The new distance of the furthest sphere
    need not be its old one, [D], even when the order is canonical: for
    three polygon spheres with [D = 0.9], in binary64, it is
    [0.9 / 3 * 3], which is less than 0.9. *)
Theorem furthest_sphere_new_position :
  (forall (sc : scene) (obj_list : list string),
      NoDup obj_list -> (0 < no_of_spheres obj_list)%nat ->
      markers_agree obj_list ->
      exists D sc' m,
        distance_for_furthestsphere sc obj_list = Ok D
        /\ fix_arrangement sc obj_list = Ok sc'
        /\ furthest_sphere sc obj_list = Ok m
        /\ new_order_for_fixed_arrangement sc obj_list
           = canonical_order sc obj_list
        /\ nth_error (canonical_order sc obj_list)
                     (no_of_spheres obj_list - 1) = Some m
        /\ translate sc' m
           = (D / INR (no_of_spheres obj_list)
              * INR (no_of_spheres obj_list), 0, 0))
  /\ (exists sc',
         fix_arrangement mixed_scene mixed_objects = Ok sc'
         /\ distance_for_furthestsphere mixed_scene mixed_objects = Ok 2
         /\ furthest_sphere mixed_scene mixed_objects = Ok "pSphere1"%string
         /\ translate sc' "pSphere1" = (4, 0, 0)
         /\ forall (is_sphere : string -> bool) (sc'' : scene),
             is_sphere = contains "pSphere"
             \/ is_sphere = contains "Sphere" ->
             placed_canonically is_sphere mixed_scene mixed_objects sc'' ->
             translate sc'' "pSphere1" = (2, 0, 0))
  /\ (NoDup three_spheres /\ markers_agree three_spheres
      /\ exists sc' D',
          Binary64.fix_arrangement Binary64.nine_tenths_scene three_spheres
          = Ok sc'
          /\ Binary64.distance_for_furthestsphere Binary64.nine_tenths_scene
                                                  three_spheres
             = Ok Binary64.nine_tenths
          /\ Binary64.furthest_sphere Binary64.nine_tenths_scene three_spheres
             = Ok "pSphere3"%string
          /\ Binary64.new_order_for_fixed_arrangement
               Binary64.nine_tenths_scene three_spheres
             = Ok three_spheres
          /\ Binary64.translate sc' "pSphere3"
             = (PrimFloat.mul
                  (PrimFloat.div Binary64.nine_tenths (Binary64.of_int 3))
                  (Binary64.of_int 3),
                PrimFloat.zero, PrimFloat.zero)
          /\ Binary64.distance_from_center sc' "pSphere3" = Ok D'
          /\ PrimFloat.ltb D' Binary64.nine_tenths = true).
Proof.
  split; [exact furthest_sphere_rank |]. split.
  - destruct mixed_fix as (sc' & Hfix & _ & Hp).
    exists sc'. split; [exact Hfix |].
    split; [rewrite mixed_furthest; f_equal; apply mixed_distance_pSphere1 |].
    split; [reflexivity |]. split; [exact Hp |].
    exact mixed_canonical_furthest.
  - split; [exact three_spheres_NoDup |].
    split; [exact three_spheres_agree |]. exact nine_tenths_run.
Qed.

Lemma furthest_sphere_new_position_witness :
  NoDup three_objects /\ (0 < no_of_spheres three_objects)%nat
  /\ markers_agree three_objects
  /\ exists D sc' m,
      distance_for_furthestsphere disorder_scene three_objects = Ok D
      /\ fix_arrangement disorder_scene three_objects = Ok sc'
      /\ furthest_sphere disorder_scene three_objects = Ok m
      /\ new_order_for_fixed_arrangement disorder_scene three_objects
         = canonical_order disorder_scene three_objects
      /\ nth_error (canonical_order disorder_scene three_objects)
                   (no_of_spheres three_objects - 1) = Some m
      /\ translate sc' m
         = (D / INR (no_of_spheres three_objects)
            * INR (no_of_spheres three_objects), 0, 0).
Proof.
  assert (Hnd : NoDup three_objects)
    by (repeat constructor; simpl; intuition discriminate).
  assert (Hn : (0 < no_of_spheres three_objects)%nat) by (cbv; lia).
  assert (Hag : markers_agree three_objects)
    by (intros o [<- | [<- | [<- | []]]]; reflexivity).
  split; [exact Hnd |]. split; [exact Hn |]. split; [exact Hag |].
  exact (proj1 furthest_sphere_new_position disorder_scene three_objects
           Hnd Hn Hag).
Defined.

(** ** A run with three corrections *)

Ltac eval_Rltb :=
  repeat match goal with
    | |- context [Rltb ?a ?b] =>
        first [ replace (Rltb a b) with true
                  by (symmetry; apply Rltb_true; lra)
              | replace (Rltb a b) with false
                  by (symmetry; apply Rltb_false; lra) ]
    end.

Ltac eval_Reqb :=
  repeat match goal with
    | |- context [Reqb ?a ?b] =>
        first [ replace (Reqb a b) with true
                  by (symmetry; apply Reqb_true; lra)
              | replace (Reqb a b) with false
                  by (symmetry; apply Reqb_false; lra) ]
    end.

Lemma magnitude_y_axis (y : R) : 0 <= y -> magnitude (0, y, 0) = y.
Proof.
  intros Hy. unfold magnitude.
  replace (0 ^ 2 + y ^ 2 + 0 ^ 2) with (Rsqr y) by (unfold Rsqr; ring).
  now apply sqrt_Rsqr.
Qed.

Lemma disorder_distances :
  distance_from_center disorder_scene "pSphere1" = 4
  /\ distance_from_center disorder_scene "pSolid1" = 1
  /\ distance_from_center disorder_scene "pSolid2" = 2.
Proof.
  split; [| split].
  - apply distance_from_center_x_axis; [reflexivity | lra].
  - apply distance_from_center_x_axis; [reflexivity | lra].
  - rewrite distance_from_center_magnitude.
    change (get_position disorder_scene "pSolid2") with (0, 2, 0).
    apply magnitude_y_axis. lra.
Qed.

Lemma disorder_checked_list :
  checked_list disorder_scene three_objects
  = ["pSolid1"; "pSolid2"; "pSphere1"]%string.
Proof.
  destruct disorder_distances as (H4 & H1 & H2).
  unfold checked_list.
  replace (remove_shapes three_objects)
    with ["pSphere1"; "pSolid1"; "pSolid2"]%string by reflexivity.
  cbn [sort_by insert]. rewrite ?H1, ?H2, ?H4. eval_Rltb.
  cbn [insert]. rewrite ?H1, ?H2, ?H4. eval_Rltb.
  cbn [insert]. rewrite ?H1, ?H2, ?H4. eval_Rltb.
  reflexivity.
Qed.

Lemma disorder_equally_spaced :
  if_equally_spaced disorder_scene ["pSolid1"; "pSolid2"; "pSphere1"]%string
  = Ok false.
Proof.
  destruct disorder_distances as (H4 & H1 & H2).
  unfold if_equally_spaced. cbn [map].
  rewrite <- !distance_from_center_magnitude, H1, H2, H4.
  rewrite sort_by_R_sorted_id.
  - cbn [list_get nth_error bind adjacent]. eval_Reqb. reflexivity.
  - repeat constructor; lra.
Qed.

Lemma disorder_in_line :
  check_if_in_line disorder_scene ["pSolid1"; "pSolid2"; "pSphere1"]%string
  = false.
Proof.
  apply check_if_in_line_false. eexists. split; [now left |].
  cbn. intros H. apply point_eq_inv in H. lra.
Qed.

Lemma disorder_right_order :
  if_right_order disorder_scene ["pSolid1"; "pSolid2"; "pSphere1"]%string
  = Ok false.
Proof.
  destruct disorder_distances as (H4 & H1 & H2).
  destruct (if_right_order_last_char disorder_scene
              ["pSolid1"; "pSolid2"; "pSphere1"]%string) as (b & Hb & Hiff).
  rewrite Hb. f_equal. apply Hiff.
  exists "pSphere1"%string, "pSolid1"%string.
  split; [simpl; auto |]. split; [reflexivity |]. split; [now left |].
  split; [exists "1"%char; split; reflexivity | lra].
Qed.


(** In that run the correction is called three times. *)
Lemma disorder_three_calls :
  let out := arrangement_check_and_fix three_objects
                                       (mkWorld disorder_scene []) in
  fst out = Ok tt
  /\ fix_calls (w_log (snd out))
     = [Fix_called ["pSolid1"; "pSolid2"; "pSphere1"]%string;
        Fix_called ["pSolid1"; "pSolid2"; "pSphere1"]%string;
        Fix_called ["pSolid1"; "pSolid2"; "pSphere1"]%string].
Proof.
  intros out.
  assert (Hout : out = _)
    by (apply entry_point_unfold with (equally_spaced := false)
          (in_line := false) (right_order2 := false) (right_order := false);
        rewrite disorder_checked_list;
        [ apply disorder_equally_spaced | apply disorder_in_line
        | reflexivity | apply disorder_right_order ]).
  rewrite disorder_checked_list in Hout. simpl negb in Hout.
  match type of Hout with
  | _ = ?chain _ =>
      destruct (@three_guarded_fixes true true true
                  ["pSolid1"; "pSolid2"; "pSphere1"]%string
                  "Objects were not equally spaced and are fixed"
                  "Objects were not in one line and are fixed"
                  "Objects were not in right order and are fixed"
                  (mkWorld disorder_scene []) eq_refl)
        as (_ & _ & Hall & Hcount & Hok)
  end.
  rewrite <- Hout in Hall, Hcount, Hok.
  assert (Hres : fst out = Ok tt) by (apply Hok; cbv; lia).
  split; [exact Hres |]. specialize (Hcount Hres). simpl in Hcount.
  destruct (fix_calls (w_log (snd out))) as [| a [| b [| c [| d l]]]];
    try discriminate Hcount.
  rewrite (Hall a), (Hall b), (Hall c); simpl; auto.
Qed.

(** * Further properties *)

(** ** Vector functions *)

(** X1. [distance_bw_points] is the magnitude of the vector between
    the two points, and it does not depend on the order in which the
    points are given. *)
Theorem distance_bw_points_symmetric :
  (forall p q, distance_bw_points p q = magnitude (vector_bw_obj q p))
  /\ (forall p q, distance_bw_points p q = distance_bw_points q p).
Proof.
  split.
  - intros [[p0 p1] p2] [[q0 q1] q2]. reflexivity.
  - intros [[p0 p1] p2] [[q0 q1] q2]. unfold distance_bw_points.
    f_equal. ring.
Qed.

Lemma magnitude_scale (k : R) (v : point) :
  magnitude (vec_scale k v) = Rabs k * magnitude v.
Proof.
  destruct v as [[x y] z]. unfold magnitude, vec_scale.
  replace ((k * x) ^ 2 + (k * y) ^ 2 + (k * z) ^ 2)
    with (Rsqr k * (x ^ 2 + y ^ 2 + z ^ 2)) by (unfold Rsqr; ring).
  rewrite sqrt_mult; [| apply Rle_0_sqr | nra].
  now rewrite sqrt_Rsqr_abs.
Qed.

Lemma magnitude_opposite (v : point) :
  magnitude (vec_scale (-1) v) = magnitude v.
Proof.
  rewrite magnitude_scale. replace (Rabs (-1)) with 1; [ring |].
  unfold Rabs. destruct (Rcase_abs (-1)); lra.
Qed.

(** X2. The range of [magnitude] in binary64: a coordinate of
    [2 ^ 600] makes it raise [OverflowError]; the vector
    [(2 ^ - 600, 0, 0)], which is not zero, has magnitude 0; and
    [magnitude] is not homogeneous, [(3, 3, 0)] having a smaller
    magnitude than three times that of [(1, 1, 0)]. *)
Theorem magnitude_binary64_range :
  Binary64.magnitude (Binary64.along_x Binary64.two_to_600)
  = Raise OverflowError
  /\ Binary64.magnitude (Binary64.along_x Binary64.two_to_minus_600)
     = Ok PrimFloat.zero
  /\ PrimFloat.eqb Binary64.two_to_minus_600 PrimFloat.zero = false
  /\ exists a b,
      Binary64.magnitude (Binary64.diagonal (Binary64.of_int 3)) = Ok a
      /\ Binary64.magnitude (Binary64.diagonal (Binary64.of_int 1)) = Ok b
      /\ PrimFloat.ltb a (PrimFloat.mul (Binary64.of_int 3) b) = true.
Proof.
  split; [vm_compute; reflexivity |]. split; [vm_compute; reflexivity |].
  split; [vm_compute; reflexivity |].
  eexists. eexists. split; [vm_compute; reflexivity |].
  split; vm_compute; reflexivity.
Qed.

(** X4. [cross_product] is anticommutative: swapping the arguments
    negates the result and keeps its magnitude. *)
Theorem cross_product_anticommutative (u v : point) :
  cross_product v u = vec_scale (-1) (cross_product u v)
  /\ magnitude (cross_product v u) = magnitude (cross_product u v).
Proof.
  assert (Hanti : cross_product v u = vec_scale (-1) (cross_product u v)).
  { destruct u as [[u0 u1] u2], v as [[v0 v1] v2]. simpl.
    apply point_eq; ring. }
  split; [exact Hanti |]. rewrite Hanti. apply magnitude_opposite.
Qed.

(** ** Collinearity under motions of the scene *)

Lemma adjacent_ext {A B : Type} (f g : A -> A -> B) (l : list A) :
  (forall a b, f a b = g a b) -> adjacent f l = adjacent g l.
Proof.
  intros H. induction l as [| x [| y l] IH]; try reflexivity.
  change (f x y :: adjacent f (y :: l) = g x y :: adjacent g (y :: l)).
  now rewrite H, IH.
Qed.

Lemma adjacent_map_in {A B C : Type} (f : B -> B -> C) (g : A -> B)
    (l : list A) :
  adjacent f (map g l) = adjacent (fun a b => f (g a) (g b)) l.
Proof.
  induction l as [| x [| y l] IH]; try reflexivity.
  change (f (g x) (g y) :: adjacent f (map g (y :: l))
          = f (g x) (g y) :: adjacent (fun a b => f (g a) (g b)) (y :: l)).
  now rewrite IH.
Qed.

Lemma adjacent_map_out {A B C : Type} (f : A -> A -> B) (h : B -> C)
    (l : list A) :
  adjacent (fun a b => h (f a b)) l = map h (adjacent f l).
Proof.
  induction l as [| x [| y l] IH]; try reflexivity.
  change (h (f x y) :: adjacent (fun a b => h (f a b)) (y :: l)
          = h (f x y) :: map h (adjacent f (y :: l))).
  now rewrite IH.
Qed.

Lemma adjacent_snoc {A B : Type} (f : A -> A -> B) (l : list A) (a b : A) :
  adjacent f ((l ++ [a]) ++ [b]) = adjacent f (l ++ [a]) ++ [f a b].
Proof.
  induction l as [| x l IH]; [reflexivity |].
  destruct l as [| y l]; [reflexivity |].
  change (f x y :: adjacent f (((y :: l) ++ [a]) ++ [b])
          = (f x y :: adjacent f ((y :: l) ++ [a])) ++ [f a b]).
  now rewrite IH.
Qed.

Lemma adjacent_rev {A B : Type} (f : A -> A -> B) (l : list A) :
  adjacent f (rev l) = rev (adjacent (fun a b => f b a) l).
Proof.
  induction l as [| x [| y l] IH]; try reflexivity.
  change (adjacent f ((rev l ++ [y]) ++ [x])
          = rev (f y x :: adjacent (fun a b => f b a) (y :: l))).
  rewrite adjacent_snoc. cbn [rev]. f_equal. exact IH.
Qed.

Lemma check_if_in_line_cross_products (sc sc' : scene)
    (l l' : list string) :
  (forall c, In c (cross_products_of sc' l') ->
             exists c', In c' (cross_products_of sc l)
                        /\ magnitude c = magnitude c') ->
  (forall c, In c (cross_products_of sc l) ->
             exists c', In c' (cross_products_of sc' l')
                        /\ magnitude c = magnitude c') ->
  check_if_in_line sc' l' = check_if_in_line sc l.
Proof.
  intros H1 H2.
  destruct (check_if_in_line sc l) eqn:E.
  - apply check_if_in_line_true. intros c Hc.
    destruct (H1 c Hc) as (c' & Hc' & ->).
    now apply (proj1 (check_if_in_line_true sc l) E).
  - apply check_if_in_line_false in E. destruct E as (c & Hc & Hne).
    apply check_if_in_line_false.
    destruct (H2 c Hc) as (c' & Hc' & Hm). exists c'. split; [exact Hc' |].
    intros ->. apply Hne, magnitude_zero_iff. rewrite Hm.
    now apply magnitude_zero_iff.
Qed.

(** X5. Moving every object of the list by the same offset does not
    change the answer of [check_if_in_line]: the line need not pass
    through the origin. *)
Theorem check_if_in_line_translation (sc sc' : scene) (obj_list : list string)
    (offset : point) :
  (forall obj, In obj obj_list ->
               get_position sc' obj = vec_add (get_position sc obj) offset) ->
  check_if_in_line sc' obj_list = check_if_in_line sc obj_list.
Proof.
  intros H.
  assert (E : cross_products_of sc' obj_list = cross_products_of sc obj_list).
  { unfold cross_products_of, displacements. f_equal.
    rewrite (map_ext_in _ _ _ H).
    rewrite <- (map_map (get_position sc) (fun p => vec_add p offset)).
    rewrite adjacent_map_in. apply adjacent_ext.
    intros [[a0 a1] a2] [[b0 b1] b2]. destruct offset as [[t0 t1] t2].
    simpl. apply point_eq; ring. }
  rewrite !check_if_in_line_unfold. now rewrite E.
Qed.

Lemma check_if_in_line_translation_witness :
  (forall obj, In obj three_objects ->
               get_position raised_row_scene obj
               = vec_add (get_position row_scene obj) (0, 1, 0))
  /\ check_if_in_line raised_row_scene three_objects
     = check_if_in_line row_scene three_objects.
Proof.
  assert (H : forall obj, In obj three_objects ->
                get_position raised_row_scene obj
                = vec_add (get_position row_scene obj) (0, 1, 0)).
  { intros obj [<- | [<- | [<- | []]]]; cbn; apply point_eq; ring. }
  split; [exact H |].
  exact (@check_if_in_line_translation row_scene raised_row_scene
           three_objects (0, 1, 0) H).
Defined.

(** X6. Listing the objects in the opposite order does not change the
    answer of [check_if_in_line]. *)
Theorem check_if_in_line_rev (sc : scene) (obj_list : list string) :
  check_if_in_line sc (rev obj_list) = check_if_in_line sc obj_list.
Proof.
  assert (E : cross_products_of sc (rev obj_list)
              = rev (map (vec_scale (-1)) (cross_products_of sc obj_list))).
  { unfold cross_products_of, displacements.
    rewrite map_rev, !adjacent_rev. f_equal.
    rewrite (adjacent_ext (fun a b => vector_bw_obj b a)
               (fun a b => vec_scale (-1) (vector_bw_obj a b))).
    - rewrite adjacent_map_out, adjacent_map_in, <- adjacent_map_out.
      apply adjacent_ext. intros [[a0 a1] a2] [[b0 b1] b2]. simpl.
      apply point_eq; ring.
    - intros [[a0 a1] a2] [[b0 b1] b2]. simpl. apply point_eq; ring. }
  assert (Hm : forall c, magnitude (vec_scale (-1) c) = magnitude c).
  { intros c. rewrite magnitude_scale.
    replace (Rabs (-1)) with 1; [ring |].
    unfold Rabs. destruct (Rcase_abs (-1)); lra. }
  apply check_if_in_line_cross_products.
  - intros c Hc. rewrite E in Hc. apply in_rev in Hc.
    apply in_map_iff in Hc.
    destruct Hc as (c' & <- & Hc'). exists c'. now rewrite Hm.
  - intros c Hc. exists (vec_scale (-1) c). rewrite Hm. split; [| reflexivity].
    rewrite E. apply -> in_rev. apply in_map_iff. now exists c.
Qed.

(** ** Equal spacing *)

Lemma sorted_distances_sorted (sc : scene) (obj_list : list string) :
  StronglySorted Rle (sorted_distances sc obj_list).
Proof.
  apply (@sort_by_sorted R R Rltb (fun d => d) Rle).
  - intros a b H. now apply Rltb_false.
  - intros a b H. apply Rltb_true in H. lra.
  - intros a b c; lra.
Qed.

Lemma sorted_distances_length (sc : scene) (obj_list : list string) :
  List.length (sorted_distances sc obj_list) = List.length obj_list.
Proof. unfold sorted_distances. now rewrite sort_by_length, length_map. Qed.

Lemma three_objects_two : (2 <= List.length three_objects)%nat.
Proof. simpl. lia. Qed.

Lemma sorted_perm_eq (l1 l2 : list R) :
  StronglySorted Rle l1 -> StronglySorted Rle l2 -> Permutation l1 l2 ->
  l1 = l2.
Proof.
  revert l2. induction l1 as [| h1 t1 IH]; intros l2 H1 H2 HP.
  - now apply Permutation_nil in HP.
  - destruct l2 as [| h2 t2].
    + symmetry in HP. now apply Permutation_nil in HP.
    + apply StronglySorted_inv in H1. destruct H1 as [H1 Hh1].
      apply StronglySorted_inv in H2. destruct H2 as [H2 Hh2].
      rewrite Forall_forall in Hh1, Hh2.
      assert (Heq : h1 = h2).
      { assert (I1 : In h1 (h2 :: t2))
          by (eapply Permutation_in; [exact HP | now left]).
        assert (I2 : In h2 (h1 :: t1))
          by (eapply Permutation_in; [symmetry; exact HP | now left]).
        destruct I1 as [E | I1]; [now symmetry |].
        destruct I2 as [E | I2]; [exact E |].
        specialize (Hh2 _ I1). specialize (Hh1 _ I2). lra. }
      subst h2. f_equal. apply IH; try assumption.
      eapply Permutation_cons_inv; exact HP.
Qed.

(** X8. [if_equally_spaced] does not depend on the order in which the
    objects are listed. *)
Theorem if_equally_spaced_permutation (sc : scene) (l l' : list string) :
  Permutation l l' -> if_equally_spaced sc l = if_equally_spaced sc l'.
Proof.
  intros HP.
  assert (E : sorted_distances sc l = sorted_distances sc l').
  { apply sorted_perm_eq; try apply sorted_distances_sorted.
    unfold sorted_distances. rewrite !sort_by_perm.
    now apply Permutation_map. }
  unfold if_equally_spaced. fold (sorted_distances sc l).
  fold (sorted_distances sc l'). now rewrite E.
Qed.

Lemma three_objects_swapped :
  Permutation three_objects ["pSolid1"; "pSphere1"; "pSolid2"]%string.
Proof. apply perm_swap. Qed.

Lemma if_equally_spaced_permutation_witness :
  Permutation three_objects ["pSolid1"; "pSphere1"; "pSolid2"]%string
  /\ if_equally_spaced disorder_scene three_objects
     = if_equally_spaced disorder_scene
         ["pSolid1"; "pSphere1"; "pSolid2"]%string.
Proof.
  split; [exact three_objects_swapped |].
  exact (@if_equally_spaced_permutation disorder_scene _ _
           three_objects_swapped).
Defined.

(** ** Sphere-before-solid ordering, in any order *)

(** X9. The answer of [if_right_order] does not depend on the order in
    which the objects are listed: two runs on the same objects that
    both return, return the same answer. *)
Theorem if_right_order_permutation (sc : scene) (l l' : list string)
    (b b' : bool) :
  Permutation l l' ->
  if_right_order sc l = Ok b -> if_right_order sc l' = Ok b' -> b = b'.
Proof.
  intros HP Hl Hl'.
  destruct (if_right_order_last_char sc l) as (c & Hc & Hiff).
  destruct (if_right_order_last_char sc l') as (c' & Hc' & Hiff').
  rewrite Hl in Hc. injection Hc as <-.
  rewrite Hl' in Hc'. injection Hc' as <-.
  assert (Hsame : b = false <-> b' = false).
  { rewrite Hiff, Hiff'. split.
    - intros (o & o2 & Ho & Hs & Ho2 & H). exists o, o2.
      split; [eapply Permutation_in; eassumption |]. split; [exact Hs |].
      split; [eapply Permutation_in; eassumption | exact H].
    - intros (o & o2 & Ho & Hs & Ho2 & H). exists o, o2. symmetry in HP.
      split; [eapply Permutation_in; eassumption |]. split; [exact Hs |].
      split; [eapply Permutation_in; eassumption | exact H]. }
  destruct b, b'; try reflexivity; intuition discriminate.
Qed.

Lemma three_objects_sorted_perm :
  Permutation three_objects ["pSolid1"; "pSolid2"; "pSphere1"]%string.
Proof. apply (Permutation_cons_append ["pSolid1"; "pSolid2"]%string). Qed.

Lemma disorder_right_order_listed :
  if_right_order disorder_scene three_objects = Ok false.
Proof.
  destruct disorder_distances as (H4 & H1 & H2).
  destruct (if_right_order_last_char disorder_scene three_objects)
    as (b & Hb & Hiff).
  rewrite Hb. f_equal. apply Hiff.
  exists "pSphere1"%string, "pSolid1"%string.
  split; [now left |]. split; [reflexivity |].
  split; [right; now left |].
  split; [exists "1"%char; split; reflexivity | lra].
Qed.

Lemma if_right_order_permutation_witness :
  Permutation three_objects ["pSolid1"; "pSolid2"; "pSphere1"]%string
  /\ if_right_order disorder_scene three_objects = Ok false
  /\ if_right_order disorder_scene ["pSolid1"; "pSolid2"; "pSphere1"]%string
     = Ok false
  /\ false = false.
Proof.
  split; [exact three_objects_sorted_perm |].
  split; [exact disorder_right_order_listed |].
  split; [exact disorder_right_order |].
  exact (@if_right_order_permutation disorder_scene _ _ false false
           three_objects_sorted_perm disorder_right_order_listed
           disorder_right_order).
Defined.

(** ** The furthest sphere *)


Lemma furthest_is_max (sc : scene) (obj_list : list string) (D : R) :
  distance_for_furthestsphere sc obj_list = Ok D <->
  (exists m, In m obj_list /\ contains "pSphere" m = true
             /\ distance_from_center sc m = D)
  /\ (forall a, In a obj_list -> contains "pSphere" a = true ->
                distance_from_center sc a <= D).
Proof.
  split.
  - intros HD.
    assert (Hn : (0 < no_of_spheres obj_list)%nat).
    { destruct (no_of_spheres obj_list) eqn:E; [| lia].
      pose proof (furthest_of_none sc obj_list E). congruence. }
    destruct (furthest_sphere_exists sc obj_list Hn)
      as (m & _ & Hm & Hsp & HD' & Hmax).
    rewrite HD in HD'. inversion HD'; subst D. split; [now exists m | exact Hmax].
  - intros [(m & Hm & Hsp & Hd) Hmax].
    assert (Hn : (0 < no_of_spheres obj_list)%nat).
    { unfold no_of_spheres.
      assert (Hin : In m (filter (contains "pSphere") obj_list))
        by (apply filter_In; now split).
      destruct (filter (contains "pSphere") obj_list); [destruct Hin |].
      simpl. lia. }
    destruct (furthest_sphere_exists sc obj_list Hn)
      as (m' & _ & Hm' & Hsp' & HD' & Hmax').
    rewrite HD'. f_equal.
    pose proof (Hmax m' Hm' Hsp'). pose proof (Hmax' m Hm Hsp). lra.
Qed.


(** ** The new order *)

(** X11. The new order is a rearrangement of the list it is given:
    first the objects whose name contains ["Sphere"], in ascending
    distance from the origin, then all the others, in ascending face
    count; nothing is lost or added. *)
Theorem new_order_structure (sc : scene) (obj_list : list string) :
  Permutation (new_order_for_fixed_arrangement sc obj_list) obj_list
  /\ List.length (new_order_for_fixed_arrangement sc obj_list)
     = List.length obj_list
  /\ exists spheres others,
      new_order_for_fixed_arrangement sc obj_list = spheres ++ others
      /\ (forall o, In o spheres -> contains "Sphere" o = true)
      /\ (forall o, In o others -> contains "Sphere" o = false)
      /\ StronglySorted (le_distance sc) spheres
      /\ StronglySorted (le_faces sc) others.
Proof.
  split; [apply new_order_perm |].
  split; [apply Permutation_length, new_order_perm |].
  eexists. eexists. split; [reflexivity |].
  split; [| split; [| split]].
  - intros o Ho. apply sort_by_In, filter_In in Ho. apply Ho.
  - intros o Ho. apply sort_by_In, filter_In in Ho. destruct Ho as [_ H].
    now apply negb_true_iff in H.
  - apply sort_distance_sorted.
  - apply sort_faces_sorted.
Qed.

(** Stability of the sort: elements of one key keep their order. *)
Section Stability.
Variables (A K : Type) (ltb : K -> K -> bool) (key : A -> K).
Variable same : K -> bool.
Hypothesis same_not_lt :
  forall a b, same a = true -> same b = true -> ltb a b = false.

Lemma insert_stable (x : A) (l : list A) :
  filter (fun a => same (key a)) (insert ltb key x l)
  = filter (fun a => same (key a)) (x :: l).
Proof.
  induction l as [| y l IH]; [reflexivity |].
  cbn [insert]. destruct (ltb (key y) (key x)) eqn:E; [| reflexivity].
  cbn [filter] in *. rewrite IH.
  destruct (same (key y)) eqn:Ey, (same (key x)) eqn:Ex; try reflexivity.
  rewrite (@same_not_lt _ _ Ey Ex) in E. discriminate E.
Qed.

Lemma sort_by_stable (l : list A) :
  filter (fun a => same (key a)) (sort_by ltb key l)
  = filter (fun a => same (key a)) l.
Proof.
  induction l as [| x l IH]; [reflexivity |].
  cbn [sort_by]. rewrite insert_stable. cbn [filter]. now rewrite IH.
Qed.
End Stability.

Lemma filter_filter_and {A : Type} (p q : A -> bool) (l : list A) :
  filter q (filter p l) = filter (fun a => p a && q a) l.
Proof.
  induction l as [| x l IH]; [reflexivity |]. simpl.
  destruct (p x); simpl; [destruct (q x) |]; now rewrite IH.
Qed.

Lemma filter_all {A : Type} (p : A -> bool) (l : list A) :
  (forall a, In a l -> p a = true) -> filter p l = l.
Proof.
  induction l as [| x l IH]; intros H; [reflexivity |]. simpl.
  rewrite (H x (or_introl eq_refl)). f_equal. apply IH.
  intros a Ha. apply H. now right.
Qed.

(** X12. Ties keep the order of the input: in the new order, the
    objects with the ["Sphere"] marker that are at one distance, and the
    other objects that have one face count, come in the order in which
    the given list has them. *)
Theorem new_order_stable (sc : scene) (obj_list : list string) :
  (forall d,
      filter (fun o => contains "Sphere" o
                       && Reqb (distance_from_center sc o) d)
             (new_order_for_fixed_arrangement sc obj_list)
      = filter (fun o => contains "Sphere" o
                         && Reqb (distance_from_center sc o) d) obj_list)
  /\ (forall n,
         filter (fun o => negb (contains "Sphere" o)
                          && (get_faces sc o =? n)%Z)
                (new_order_for_fixed_arrangement sc obj_list)
         = filter (fun o => negb (contains "Sphere" o)
                            && (get_faces sc o =? n)%Z) obj_list).
Proof.
  unfold new_order_for_fixed_arrangement.
  set (S := sort_by Rltb (distance_from_center sc)
                    (filter (contains "Sphere") obj_list)).
  set (T := sort_by Z.ltb (get_faces sc)
                    (filter (fun o => negb (contains "Sphere" o)) obj_list)).
  assert (HS : forall o, In o S -> contains "Sphere" o = true).
  { intros o Ho. apply sort_by_In, filter_In in Ho. apply Ho. }
  assert (HT : forall o, In o T -> contains "Sphere" o = false).
  { intros o Ho. apply sort_by_In, filter_In in Ho. destruct Ho as [_ H].
    now apply negb_true_iff in H. }
  split.
  - intros d. rewrite filter_app.
    rewrite (filter_none _ T), app_nil_r
      by (intros a Ha; now rewrite (HT a Ha)).
    rewrite <- (filter_filter_and (contains "Sphere")
                  (fun o => Reqb (distance_from_center sc o) d)).
    rewrite (filter_all _ S HS). unfold S.
    rewrite (@sort_by_stable string R Rltb (distance_from_center sc)
               (fun k => Reqb k d)).
    + apply filter_filter_and.
    + intros a b Ha Hb. apply Reqb_true in Ha, Hb. subst.
      apply Rltb_irrefl.
  - intros n. rewrite filter_app.
    rewrite (filter_none _ S)
      by (intros a Ha; now rewrite (HS a Ha)).
    cbn [app].
    rewrite <- (filter_filter_and (fun o => negb (contains "Sphere" o))
                  (fun o => (get_faces sc o =? n)%Z)).
    rewrite (filter_all _ T)
      by (intros a Ha; now rewrite (HT a Ha)).
    unfold T.
    rewrite (@sort_by_stable string Z Z.ltb (get_faces sc)
               (fun k => (k =? n)%Z)).
    + apply filter_filter_and.
    + intros a b Ha Hb. apply Z.eqb_eq in Ha, Hb. subst.
      apply Z.ltb_irrefl.
Qed.

(** ** What the correction changes *)

Lemma fix_arrangement_inv (sc sc' : scene) (obj_list : list string) :
  fix_arrangement sc obj_list = Ok sc' ->
  exists D,
    distance_for_furthestsphere sc obj_list = Ok D
    /\ (0 < no_of_spheres obj_list)%nat
    /\ sc' = fold_left (place (D / INR (no_of_spheres obj_list)))
                       (enumerate (new_order_for_fixed_arrangement sc obj_list))
                       sc.
Proof.
  unfold fix_arrangement.
  destruct (distance_for_furthestsphere sc obj_list) as [D | e];
    [| discriminate].
  cbn [bind]. destruct (no_of_spheres obj_list) as [| n] eqn:En;
    [discriminate |].
  cbn [py_div bind]. intros H. inversion H. exists D.
  split; [reflexivity |]. split; [lia | reflexivity].
Qed.

Lemma place_all_In (s : R) (l : list string) (k : nat) (sc : scene)
    (obj : string) :
  In obj l ->
  exists j,
    nth_error l j = Some obj
    /\ translate (fold_left (place s) (combine (seq k (List.length l)) l) sc)
                 obj
       = (s * INR (k + j + 1), 0, 0).
Proof.
  revert k sc. induction l as [| a l IH]; intros k sc Hin; [destruct Hin |].
  cbn [fold_left combine seq List.length].
  destruct (in_dec string_dec obj l) as [Hl | Hl].
  - destruct (IH (S k) (place s sc (k, a)) Hl) as (j & Hj & Ht).
    exists (S j). split; [exact Hj |]. rewrite Ht. do 3 f_equal. f_equal. lia.
  - destruct Hin as [-> | Hin]; [| contradiction].
    exists 0%nat. split; [reflexivity |].
    rewrite place_all_other by exact Hl.
    now rewrite place_translate, String.eqb_refl, Nat.add_0_r.
Qed.

(** X13. A successful [fix_arrangement] changes no face count and moves
    no object outside the list, and it puts every object of the list,
    listed once or several times, on the positive x-axis at a multiple
    [s * (i + 1)] of one spacing [s >= 0], [i] an index of the object in
    the new order. *)
Theorem fix_arrangement_frame (sc sc' : scene) (obj_list : list string) :
  fix_arrangement sc obj_list = Ok sc' ->
  poly_faces sc' = poly_faces sc
  /\ (forall obj, ~ In obj obj_list -> translate sc' obj = translate sc obj)
  /\ exists s,
      0 <= s
      /\ forall obj, In obj obj_list ->
           exists i,
             nth_error (new_order_for_fixed_arrangement sc obj_list) i
             = Some obj
             /\ translate sc' obj = (s * INR (i + 1), 0, 0).
Proof.
  intros Hfix. destruct (fix_arrangement_inv _ _ Hfix) as (D & HD & Hn & ->).
  unfold enumerate. split; [apply place_all_faces |]. split.
  - intros obj Hobj. apply place_all_other. intros H. apply Hobj.
    eapply Permutation_in; [apply new_order_perm | exact H].
  - exists (D / INR (no_of_spheres obj_list)). split.
    + apply furthest_is_max in HD. destruct HD as [(m & _ & _ & <-) _].
      apply Rmult_le_pos; [apply distance_from_center_nonneg |].
      left. apply Rinv_0_lt_compat. now apply (lt_INR 0).
    + intros obj Hobj.
      assert (Hin : In obj (new_order_for_fixed_arrangement sc obj_list)).
      { eapply Permutation_in; [symmetry; apply new_order_perm | exact Hobj]. }
      destruct (place_all_In (D / INR (no_of_spheres obj_list)) _ 0 sc _ Hin)
        as (j & Hj & Ht).
      exists j. split; [exact Hj | exact Ht].
Qed.

Lemma row_fix_succeeds :
  exists sc', fix_arrangement row_scene three_objects = Ok sc'.
Proof. apply fix_arrangement_succeeds. cbv. lia. Qed.

Lemma fix_arrangement_frame_witness :
  exists sc',
    fix_arrangement row_scene three_objects = Ok sc'
    /\ poly_faces sc' = poly_faces row_scene
    /\ (forall obj, ~ In obj three_objects ->
                    translate sc' obj = translate row_scene obj)
    /\ exists s,
        0 <= s
        /\ forall obj, In obj three_objects ->
             exists i,
               nth_error (new_order_for_fixed_arrangement row_scene
                                                          three_objects) i
               = Some obj
               /\ translate sc' obj = (s * INR (i + 1), 0, 0).
Proof.
  destruct row_fix_succeeds as [sc' Hfix]. exists sc'.
  split; [exact Hfix |].
  exact (@fix_arrangement_frame row_scene sc' three_objects Hfix).
Defined.





(** ** The correction when the sphere markers agree *)







(** ** The filter loop, characterised *)

Lemma list_remove_middle (x : string) (pre rest : list string) :
  ~ In x pre -> list_remove x (pre ++ x :: rest) = pre ++ rest.
Proof.
  induction pre as [| y pre IH]; intros Hn; simpl.
  - now rewrite String.eqb_refl.
  - destruct (String.eqb_spec x y) as [-> | _].
    + exfalso. apply Hn. now left.
    + f_equal. apply IH. intros H. apply Hn. now right.
Qed.

Lemma remove_shapes_loop_done (fuel i : nat) (l : list string) :
  (List.length l <= i)%nat -> remove_shapes_loop fuel i l = l.
Proof.
  intros H. destruct fuel; [reflexivity |]. simpl.
  now rewrite (proj2 (nth_error_None l i) H).
Qed.

Lemma remove_shapes_loop_skipping (fuel : nat) :
  forall pre rest,
    NoDup (pre ++ rest) -> (List.length rest <= fuel)%nat ->
    remove_shapes_loop fuel (List.length pre) (pre ++ rest)
    = pre ++ drop_shapes_skipping rest.
Proof.
  induction fuel as [| fuel IH]; intros pre rest Hnd Hlen.
  - destruct rest; [reflexivity | simpl in Hlen; lia].
  - destruct rest as [| x t].
    + apply remove_shapes_loop_done. rewrite app_nil_r. lia.
    + cbn [remove_shapes_loop].
      rewrite nth_error_app2, Nat.sub_diag by lia. cbn [nth_error].
      cbn [drop_shapes_skipping].
      destruct (contains "Shape" x).
      * rewrite list_remove_middle
          by (apply NoDup_remove_2 in Hnd; intros H; apply Hnd, in_or_app;
              now left).
        apply NoDup_remove_1 in Hnd.
        destruct t as [| y t'].
        -- apply remove_shapes_loop_done. rewrite app_nil_r. lia.
        -- replace (pre ++ y :: t') with ((pre ++ [y]) ++ t')
             by (now rewrite <- app_assoc).
           replace (S (List.length pre)) with (List.length (pre ++ [y]))
             by (rewrite length_app; simpl; lia).
           rewrite IH.
           ++ now rewrite <- app_assoc.
           ++ now rewrite <- app_assoc.
           ++ simpl in Hlen. lia.
      * replace (pre ++ x :: t) with ((pre ++ [x]) ++ t)
          by (now rewrite <- app_assoc).
        replace (S (List.length pre)) with (List.length (pre ++ [x]))
          by (rewrite length_app; simpl; lia).
        rewrite IH.
        -- now rewrite <- app_assoc.
        -- now rewrite <- app_assoc.
        -- simpl in Hlen. lia.
Qed.

(** X18. On a duplicate-free list the filter loop of the entry point,
    which removes from the list it iterates over, drops each name
    containing ["Shape"] that it looks at and never looks at the name
    that follows a dropped one. *)
Theorem remove_shapes_skipping (obj_list : list string) :
  NoDup obj_list -> remove_shapes obj_list = drop_shapes_skipping obj_list.
Proof.
  intros Hnd. unfold remove_shapes.
  apply (@remove_shapes_loop_skipping (List.length obj_list) [] obj_list);
    [exact Hnd | lia].
Qed.

Lemma listed_with_shapes_NoDup : NoDup listed_with_shapes.
Proof. repeat constructor; simpl; intuition discriminate. Qed.

Lemma remove_shapes_skipping_witness :
  NoDup listed_with_shapes
  /\ remove_shapes listed_with_shapes
     = drop_shapes_skipping listed_with_shapes.
Proof.
  split; [exact listed_with_shapes_NoDup |].
  exact (remove_shapes_skipping listed_with_shapes_NoDup).
Defined.

Lemma drop_shapes_cons_shape (x y : string) (t : list string) :
  contains "Shape" x = true ->
  drop_shapes_skipping (x :: y :: t) = y :: drop_shapes_skipping t.
Proof. intros H. cbn [drop_shapes_skipping]. now rewrite H. Qed.

Lemma drop_shapes_cons_other (x : string) (l : list string) :
  contains "Shape" x = false ->
  drop_shapes_skipping (x :: l) = x :: drop_shapes_skipping l.
Proof. intros H. cbn [drop_shapes_skipping]. now rewrite H. Qed.

Lemma filter_others_cons (x : string) (l : list string) :
  filter (fun o => negb (contains "Shape" o)) (x :: l)
  = if contains "Shape" x
    then filter (fun o => negb (contains "Shape" o)) l
    else x :: filter (fun o => negb (contains "Shape" o)) l.
Proof. cbn [filter]. now destruct (contains "Shape" x). Qed.

Lemma drop_shapes_skipping_filter (n : nat) :
  forall l, (List.length l <= n)%nat -> no_adjacent_shapes l = true ->
            drop_shapes_skipping l
            = filter (fun o => negb (contains "Shape" o)) l.
Proof.
  induction n as [| n IH]; intros l Hlen Hadj.
  - destruct l; [reflexivity | simpl in Hlen; lia].
  - destruct l as [| x [| y t]].
    + reflexivity.
    + simpl. now destruct (contains "Shape" x).
    + change (no_adjacent_shapes (x :: y :: t))
        with (negb (contains "Shape" x && contains "Shape" y)
              && no_adjacent_shapes (y :: t)) in Hadj.
      apply andb_true_iff in Hadj. destruct Hadj as [Hxy Hrest].
      assert (E : drop_shapes_skipping (y :: t)
                  = filter (fun o => negb (contains "Shape" o)) (y :: t))
        by (apply IH; [simpl in *; lia | exact Hrest]).
      rewrite (filter_others_cons x).
      destruct (contains "Shape" x) eqn:Ex.
      * destruct (contains "Shape" y) eqn:Ey; [discriminate Hxy |].
        rewrite drop_shapes_cons_shape by exact Ex.
        rewrite drop_shapes_cons_other, filter_others_cons, Ey in E
          by exact Ey.
        rewrite filter_others_cons, Ey. exact E.
      * rewrite drop_shapes_cons_other by exact Ex. now rewrite E.
Qed.

(** X19. When the list is duplicate-free and no two neighbours both
    contain ["Shape"], the filter loop removes exactly the names
    containing ["Shape"]. *)
Theorem remove_shapes_complete (obj_list : list string) :
  NoDup obj_list -> no_adjacent_shapes obj_list = true ->
  remove_shapes obj_list
  = filter (fun o => negb (contains "Shape" o)) obj_list.
Proof.
  intros Hnd Hadj. unfold remove_shapes.
  transitivity (drop_shapes_skipping obj_list).
  - apply (@remove_shapes_loop_skipping (List.length obj_list) [] obj_list);
      [exact Hnd | lia].
  - apply (@drop_shapes_skipping_filter (List.length obj_list));
      [lia | exact Hadj].
Qed.

Lemma remove_shapes_complete_witness :
  NoDup listed_with_shapes /\ no_adjacent_shapes listed_with_shapes = true
  /\ remove_shapes listed_with_shapes
     = filter (fun o => negb (contains "Shape" o)) listed_with_shapes.
Proof.
  split; [exact listed_with_shapes_NoDup |]. split; [reflexivity |].
  exact (remove_shapes_complete listed_with_shapes_NoDup eq_refl).
Defined.

Lemma list_remove_keeps (x : string) (l : list string) :
  contains "Shape" x = true ->
  filter (fun o => negb (contains "Shape" o)) (list_remove x l)
  = filter (fun o => negb (contains "Shape" o)) l.
Proof.
  intros Hx. induction l as [| y l IH]; [reflexivity |]. simpl.
  destruct (String.eqb_spec x y) as [<- | _].
  - now rewrite Hx.
  - simpl. now rewrite IH.
Qed.

Lemma list_remove_In (x o : string) (l : list string) :
  In o (list_remove x l) -> In o l.
Proof.
  induction l as [| y l IH]; [intros [] |]. simpl.
  destruct (String.eqb x y); [now right |].
  intros [<- | H]; [now left | right; now apply IH].
Qed.

(** X20. Whatever the list, the filter loop only removes names
    containing ["Shape"]: every other name is kept, as often as it
    occurs and in its order, and nothing is added. *)
Theorem remove_shapes_keeps_others (obj_list : list string) :
  filter (fun o => negb (contains "Shape" o)) (remove_shapes obj_list)
  = filter (fun o => negb (contains "Shape" o)) obj_list
  /\ (forall o, In o (remove_shapes obj_list) -> In o obj_list)
  /\ (List.length (remove_shapes obj_list) <= List.length obj_list)%nat.
Proof.
  unfold remove_shapes. generalize (List.length obj_list) at 1 2 3 as fuel.
  generalize 0%nat as i. intros i fuel. revert i obj_list.
  induction fuel as [| fuel IH]; intros i l.
  - simpl. repeat split; auto.
  - simpl. destruct (nth_error l i) as [x |]; [| repeat split; auto].
    destruct (contains "Shape" x) eqn:Ex; [| apply IH].
    destruct (IH (S i) (list_remove x l)) as (H1 & H2 & H3).
    split; [now rewrite H1, list_remove_keeps |]. split.
    + intros o Ho. eapply list_remove_In. apply H2. exact Ho.
    + pose proof (list_remove_length x l). lia.
Qed.

(** ** The entry point: what a run leaves behind *)


Lemma fix_arrangement_none (sc : scene) (obj_list : list string) :
  no_of_spheres obj_list = 0%nat ->
  fix_arrangement sc obj_list = Raise IndexError.
Proof.
  intros H. unfold fix_arrangement.
  now rewrite (furthest_of_none sc obj_list H).
Qed.

(** X21. When equal spacing and collinearity hold and at least one of
    the two order checks holds, [arrangement_check_and_fix] returns
    without calling the correction: the scene is untouched and nothing
    is printed. *)
Theorem entry_point_valid_untouched (sc : scene) (listRelatives : list string)
    (right_order right_order2 : bool) :
  let obj_list := checked_list sc listRelatives in
  if_equally_spaced sc obj_list = Ok true ->
  check_if_in_line sc obj_list = true ->
  if_right_order_poly sc obj_list = right_order2 ->
  if_right_order sc obj_list = Ok right_order ->
  right_order || right_order2 = true ->
  arrangement_check_and_fix listRelatives (mkWorld sc [])
  = (Ok tt, mkWorld sc []).
Proof.
  intros obj_list Heq Hline Hpoly Hord Hor.
  rewrite (entry_point_unfold sc listRelatives Heq Hline Hpoly Hord).
  rewrite Hor. reflexivity.
Qed.

Lemma row_distances :
  distance_from_center row_scene "pSphere1" = 1
  /\ distance_from_center row_scene "pSolid1" = 2
  /\ distance_from_center row_scene "pSolid2" = 3.
Proof.
  repeat split; apply distance_from_center_x_axis; try reflexivity; lra.
Qed.

Lemma row_checked_list : checked_list row_scene three_objects = three_objects.
Proof.
  destruct row_distances as (H1 & H2 & H3).
  unfold checked_list.
  replace (remove_shapes three_objects) with three_objects by reflexivity.
  apply sort_by_R_sorted_id. unfold three_objects.
  repeat constructor; rewrite ?H1, ?H2, ?H3; lra.
Qed.

Lemma row_equally_spaced :
  if_equally_spaced row_scene three_objects = Ok true.
Proof.
  destruct row_distances as (H1 & H2 & H3).
  apply if_equally_spaced_keyed with (s := 1);
    [exact three_objects_two | lra |].
  intros i a Hi. rewrite <- distance_from_center_magnitude.
  destruct i as [| [| [| i]]]; simpl in Hi; inversion Hi; subst;
    rewrite ?H1, ?H2, ?H3; simpl; try lra.
  destruct i; discriminate.
Qed.

Lemma row_in_line : check_if_in_line row_scene three_objects = true.
Proof. apply (check_if_in_line_on_line _ _ row_on_x_axis). Qed.

Lemma row_right_order : if_right_order row_scene three_objects = Ok true.
Proof.
  destruct row_distances as (H1 & H2 & H3).
  destruct (if_right_order_last_char row_scene three_objects)
    as (b & Hb & Hiff).
  rewrite Hb. destruct b; [reflexivity |].
  destruct (proj1 Hiff eq_refl) as (o & o2 & Ho & Hs & Ho2 & _ & Hd).
  destruct Ho as [<- | [<- | [<- | []]]]; try discriminate Hs.
  destruct Ho2 as [<- | [<- | [<- | []]]]; rewrite ?H1, ?H2, ?H3 in Hd; lra.
Qed.

Lemma entry_point_valid_untouched_witness :
  if_equally_spaced row_scene (checked_list row_scene three_objects) = Ok true
  /\ check_if_in_line row_scene (checked_list row_scene three_objects) = true
  /\ if_right_order_poly row_scene (checked_list row_scene three_objects)
     = true
  /\ if_right_order row_scene (checked_list row_scene three_objects) = Ok true
  /\ true || true = true
  /\ arrangement_check_and_fix three_objects (mkWorld row_scene [])
     = (Ok tt, mkWorld row_scene []).
Proof.
  assert (H1 : if_equally_spaced row_scene
                 (checked_list row_scene three_objects) = Ok true)
    by (rewrite row_checked_list; exact row_equally_spaced).
  assert (H2 : check_if_in_line row_scene
                 (checked_list row_scene three_objects) = true)
    by (rewrite row_checked_list; exact row_in_line).
  assert (H3 : if_right_order_poly row_scene
                 (checked_list row_scene three_objects) = true)
    by (rewrite row_checked_list; reflexivity).
  assert (H4 : if_right_order row_scene
                 (checked_list row_scene three_objects) = Ok true)
    by (rewrite row_checked_list; exact row_right_order).
  split; [exact H1 |]. split; [exact H2 |]. split; [exact H3 |].
  split; [exact H4 |]. split; [reflexivity |].
  exact (@entry_point_valid_untouched row_scene three_objects true true
           H1 H2 H3 H4 eq_refl).
Defined.



(** X23. When a check fails and no name of the list contains
    ["pSphere"], [arrangement_check_and_fix] raises [IndexError] in its
    first call of the correction: the scene is untouched and no line is
    printed. *)
Theorem entry_point_no_sphere (sc : scene) (listRelatives : list string)
    (equally_spaced in_line right_order2 right_order : bool) :
  let obj_list := checked_list sc listRelatives in
  if_equally_spaced sc obj_list = Ok equally_spaced ->
  check_if_in_line sc obj_list = in_line ->
  if_right_order_poly sc obj_list = right_order2 ->
  if_right_order sc obj_list = Ok right_order ->
  no_of_spheres obj_list = 0%nat ->
  equally_spaced && in_line && (right_order || right_order2) = false ->
  arrangement_check_and_fix listRelatives (mkWorld sc [])
  = (Raise IndexError, mkWorld sc [Fix_called obj_list]).
Proof.
  intros obj_list Heq Hline Hpoly Hord Hnone Hfail.
  rewrite (entry_point_unfold sc listRelatives Heq Hline Hpoly Hord).
  fold obj_list.
  assert (Hstep : forall line,
             fix_and_print obj_list line (mkWorld sc [])
             = (Raise IndexError, mkWorld sc [Fix_called obj_list])).
  { intros line. rewrite fix_and_print_run. cbn [w_scene w_log].
    now rewrite (fix_arrangement_none sc obj_list Hnone). }
  unfold mbind.
  destruct equally_spaced; cbn [negb when].
  - unfold mret at 1. destruct in_line; cbn [negb when].
    + unfold mret at 1. simpl in Hfail. rewrite Hfail. cbn [negb when].
      now rewrite Hstep.
    + now rewrite Hstep.
  - now rewrite Hstep.
Qed.

Lemma solids_distances :
  distance_from_center solids_scene "pSolid1" = 1
  /\ distance_from_center solids_scene "pSolid2" = 2
  /\ distance_from_center solids_scene "pSolid3" = 4.
Proof.
  repeat split; apply distance_from_center_x_axis; try reflexivity; lra.
Qed.

Lemma solids_checked_list : checked_list solids_scene solids_only = solids_only.
Proof.
  destruct solids_distances as (H1 & H2 & H3).
  unfold checked_list.
  replace (remove_shapes solids_only) with solids_only by reflexivity.
  apply sort_by_R_sorted_id. unfold solids_only.
  repeat constructor; rewrite ?H1, ?H2, ?H3; lra.
Qed.

Lemma solids_equally_spaced :
  if_equally_spaced solids_scene solids_only = Ok false.
Proof.
  destruct solids_distances as (H1 & H2 & H3).
  unfold if_equally_spaced, solids_only. cbn [map].
  rewrite <- !distance_from_center_magnitude, H1, H2, H3.
  rewrite sort_by_R_sorted_id.
  - cbn [list_get nth_error bind adjacent]. eval_Reqb. reflexivity.
  - repeat constructor; lra.
Qed.

Lemma solids_in_line : check_if_in_line solids_scene solids_only = true.
Proof.
  apply (@check_if_in_line_on_line _ _ (0, 0, 0) (1, 0, 0)).
  intros o [<- | [<- | [<- | []]]]; apply x_axis_on_line.
Qed.

Lemma entry_point_no_sphere_witness :
  if_equally_spaced solids_scene (checked_list solids_scene solids_only)
  = Ok false
  /\ check_if_in_line solids_scene (checked_list solids_scene solids_only)
     = true
  /\ if_right_order_poly solids_scene (checked_list solids_scene solids_only)
     = true
  /\ if_right_order solids_scene (checked_list solids_scene solids_only)
     = Ok true
  /\ no_of_spheres (checked_list solids_scene solids_only) = 0%nat
  /\ false && true && (true || true) = false
  /\ arrangement_check_and_fix solids_only (mkWorld solids_scene [])
     = (Raise IndexError,
        mkWorld solids_scene
                [Fix_called (checked_list solids_scene solids_only)]).
Proof.
  assert (H1 : if_equally_spaced solids_scene
                 (checked_list solids_scene solids_only) = Ok false)
    by (rewrite solids_checked_list; exact solids_equally_spaced).
  assert (H2 : check_if_in_line solids_scene
                 (checked_list solids_scene solids_only) = true)
    by (rewrite solids_checked_list; exact solids_in_line).
  assert (H3 : if_right_order_poly solids_scene
                 (checked_list solids_scene solids_only) = true)
    by (rewrite solids_checked_list; reflexivity).
  assert (H4 : if_right_order solids_scene
                 (checked_list solids_scene solids_only) = Ok true)
    by (rewrite solids_checked_list; reflexivity).
  assert (H5 : no_of_spheres (checked_list solids_scene solids_only) = 0%nat)
    by (rewrite solids_checked_list; reflexivity).
  split; [exact H1 |]. split; [exact H2 |]. split; [exact H3 |].
  split; [exact H4 |]. split; [exact H5 |]. split; [reflexivity |].
  exact (@entry_point_no_sphere solids_scene solids_only false true true true
           H1 H2 H3 H4 H5 eq_refl).
Defined.



